(** * Bounding boxes of the facemesh pipeline: [facemesh/src/box.ts]

    A shallow embedding of [box.ts] and of the part of the numeric
    backend ([@tensorflow/tfjs-core]) that it calls.

    Numbers.  JavaScript numbers and the [float32] entries of a tensor are
    modelled as exact rationals ([Q]): rounding, infinities and NaN are
    outside the model.  Every statement below that equates computed
    numbers is therefore a statement in exact arithmetic: it describes
    the run wherever no floating-point operation rounds, and the values
    up to rounding elsewhere.  Statements that only say which operation
    is applied to which operands, or which tensors are made and
    disposed, do not depend on this.  Quotients are meant for a non-zero
    divisor.  Where JavaScript reads [undefined] (a point of fewer than
    two entries, a dimension that the image lacks) the source goes on
    with NaN; the model has no such value and ends the run there with
    [NotANumber], so the statements about values assume points of two
    coordinates and images of rank 4.

    Operations.  Every operation of the library runs in a scope of its
    own: a tensor that it converts from a number or an array is disposed
    when the operation ends.  An operation in function form
    ([tf.slice(x, ..)], [tf.mul(x, ..)]) does not check its operands and
    fails in the backend on a disposed tensor; a method ([x.slice(..)],
    [x.transpose()], [x.dataSync()]) checks first and throws the
    disposed-tensor error.  Each operation makes one tensor for its
    result; the tensors a backend may make and release inside a kernel
    are not modelled.

    Tensors.  A tensor value is its shape and its row-major data, as in the
    backend.  Tensor objects live in an engine that hands out increasing
    ids, flags an object when it is disposed and keeps the stack of [tidy]
    scopes.  A [Box] holds tensor ids, so sharing between boxes is
    visible.  [box.ts] never assigns to a field of a [Box], so a box is an
    immutable record here. *)

From Stdlib Require Import QArith Qabs Qround Qminmax Lqa Lia ZArith.
From stdpp Require Import base option list gmap.

Local Open Scope Q_scope.

(** ** Tensor values *)

Record Tensor := mkTensor { shape : list nat; values : list Q }.

Inductive Error :=
| Disposed          (* a method or [dataSync] of a disposed tensor *)
| BackendFailure    (* a kernel run on a tensor whose data is gone *)
| ShapeMismatch     (* an assertion of the backend on shapes or ranks *)
| InvalidArgument   (* null where a tensor is needed, bad axis, bad size *)
| NotANumber        (* [undefined] was read: the source goes on with NaN *)
| Unmodelled.       (* a case of the backend this development leaves out *)

Inductive Result (A : Type) :=
| Ok (a : A)
| Throw (err : Error).
Arguments Ok {A} a.
Arguments Throw {A} err.

Definition sizeFromShape (s : list nat) : nat := foldr Nat.mul 1%nat s.

Definition wellShaped (t : Tensor) : Prop :=
  length (values t) = sizeFromShape (shape t).

(** The values of an array literal, and of a number, as the backend's
    [convertToTensor] infers them. *)
Definition tensor1d (l : list Q) : Tensor := mkTensor [length l] l.
Definition scalar (q : Q) : Tensor := mkTensor [] [q].

Module Kernel.

(** The [n] rows of width [w] of row-major data. *)
Fixpoint rowsOf (n w : nat) (l : list Q) : list (list Q) :=
  match n with
  | O => []
  | S n' => take w l :: rowsOf n' w (drop w l)
  end.

(** Columns 0-1 and columns 2-3 of an [n]-by-4 buffer. *)
Definition firstTwo (n : nat) (vals : list Q) : Tensor :=
  mkTensor [n; 2%nat] (concat (map (take 2) (rowsOf n 4 vals))).

Definition lastTwo (n : nat) (vals : list Q) : Tensor :=
  mkTensor [n; 2%nat] (concat (map (drop 2) (rowsOf n 4 vals))).

(** One entry of [size] in [slice]: [-1] stands for "up to the end". *)
Definition sliceExtent (dim start : nat) (d : Z) : Result nat :=
  if (0 <=? d)%Z then
    if (start + Z.to_nat d <=? dim)%nat then Ok (Z.to_nat d)
    else Throw ShapeMismatch
  else if (d =? -1)%Z then
    if (start <=? dim)%nat then Ok (dim - start)%nat
    else Throw InvalidArgument
  else Throw InvalidArgument.

(** [tf.slice] on a rank-2 tensor. *)
Definition slice (t : Tensor) (begin : nat * nat) (size : Z * Z)
  : Result Tensor :=
  match shape t with
  | [r; c] =>
      match sliceExtent r (fst begin) (fst size),
            sliceExtent c (snd begin) (snd size) with
      | Ok nr, Ok nc =>
          Ok (mkTensor [nr; nc]
                (concat (map (fun row => take nc (drop (snd begin) row))
                           (take nr (drop (fst begin)
                                       (rowsOf r c (values t)))))))
      | Throw e, _ => Throw e
      | _, Throw e => Throw e
      end
  | _ => Throw ShapeMismatch
  end.

(** The rows and columns of a rank-2 tensor. *)
Definition dims2 (t : Tensor) : option (nat * nat) :=
  match shape t with
  | [r; c] => Some (r, c)
  | _ => None
  end.

Definition rows2 (t : Tensor) : list (list Q) :=
  match shape t with
  | [r; c] => rowsOf r c (values t)
  | _ => []
  end.

(** [tf.concat2d]: every tensor has rank 2 and the tensors agree on the
    other axis. *)
Definition concat2d (ts : list Tensor) (axis : nat) : Result Tensor :=
  match ts with
  | [] => Throw InvalidArgument
  | t0 :: _ =>
      match mapM dims2 ts, dims2 t0 with
      | Some ds, Some (r0, c0) =>
          match axis with
          | 0%nat =>
              if forallb (fun d => snd d =? c0)%nat ds then
                Ok (mkTensor [sum_list (map fst ds); c0]
                      (concat (map values ts)))
              else Throw ShapeMismatch
          | 1%nat =>
              if forallb (fun d => fst d =? r0)%nat ds then
                Ok (mkTensor [r0; sum_list (map snd ds)]
                      (concat (foldr (fun t acc => zip_with app (rows2 t) acc)
                                 (replicate r0 []) ts)))
              else Throw ShapeMismatch
          | _ => Throw InvalidArgument
          end
      | _, _ => Throw ShapeMismatch
      end
  end.

(** [x.transpose()] with the default permutation, which reverses the
    axes.  Ranks above 2 do not occur in [box.ts]. *)
Definition transpose (t : Tensor) : Result Tensor :=
  match shape t with
  | [] | [_] => Ok t
  | [r; c] =>
      Ok (mkTensor [c; r]
            (flat_map (fun j => map (fun row => nth j row 0)
                                  (rowsOf r c (values t)))
               (seq 0 c)))
  | _ => Throw Unmodelled
  end.

(** Broadcasting, on shapes read from the last axis backwards. *)
Fixpoint broadcastRev (a b : list nat) : option (list nat) :=
  match a, b with
  | [], _ => Some b
  | _, [] => Some a
  | x :: a', y :: b' =>
      match broadcastRev a' b' with
      | Some r =>
          if (x =? 1)%nat then Some (y :: r)
          else if (y =? 1)%nat then Some (x :: r)
          else if (x =? y)%nat then Some (x :: r)
          else None
      | None => None
      end
  end.

Definition assertAndGetBroadcastShape (a b : list nat) : Result (list nat) :=
  match broadcastRev (rev a) (rev b) with
  | Some r => Ok (rev r)
  | None => Throw ShapeMismatch
  end.

(** The coordinates of flat index [k], last axis first. *)
Fixpoint indexToLocRev (revShape : list nat) (k : nat) : list nat :=
  match revShape with
  | [] => []
  | d :: ds => (k mod d)%nat :: indexToLocRev ds (k / d)%nat
  end.

(** The flat index in an operand of the output coordinates [revLoc]: an
    axis of extent 1 is read at 0, and the axes the operand lacks are
    dropped. *)
Fixpoint locToIndexRev (revShape revLoc : list nat) : nat :=
  match revShape, revLoc with
  | d :: ds, i :: is' =>
      ((if (d =? 1)%nat then 0 else i) + d * locToIndexRev ds is')%nat
  | _, _ => 0%nat
  end.

Definition broadcastOp (f : Q -> Q -> Q) (a b : Tensor) : Result Tensor :=
  match assertAndGetBroadcastShape (shape a) (shape b) with
  | Ok out =>
      Ok (mkTensor out
            (map (fun k =>
                    let loc := indexToLocRev (rev out) k in
                    f (nth (locToIndexRev (rev (shape a)) loc) (values a) 0)
                      (nth (locToIndexRev (rev (shape b)) loc) (values b) 0))
               (seq 0 (sizeFromShape out))))
  | Throw e => Throw e
  end.

End Kernel.

(** ** The engine: tensor objects, ids and [tidy] scopes *)

(** A tensor object keeps its shape and data after [dispose]; only the
    flag changes, and every later read of the data throws. *)
Record TensorObj := mkObj { data : Tensor; isDisposed : bool }.

(** The flag that [dispose] sets on a tensor object. *)
Definition disposed (o : TensorObj) : TensorObj := mkObj (data o) true.

Record Engine := mkEngine {
  registry : gmap nat TensorObj;    (* every tensor made so far, by id *)
  nextTensorId : nat;
  scopeStack : list (list nat)      (* tracked ids, innermost scope first *)
}.

(** Code that runs against the engine and may throw.  The engine that
    comes back is the one after the throw, as in JavaScript. *)
Definition TF (A : Type) : Type := Engine -> Engine * Result A.

Definition ret {A} (a : A) : TF A := fun e => (e, Ok a).

Definition throw {A} (err : Error) : TF A := fun e => (e, Throw err).

Definition bind {A B} (m : TF A) (k : A -> TF B) : TF B :=
  fun e =>
    match m e with
    | (e', Ok a) => k a e'
    | (e', Throw err) => (e', Throw err)
    end.

Definition liftR {A} (r : Result A) : TF A := fun e => (e, r).

Declare Scope tf_scope.
Delimit Scope tf_scope with tf.
Notation "x <- m ;; k" := (bind m (fun x => k))
  (at level 100, m at next level, right associativity) : tf_scope.
Notation "m ;;; k" := (bind m (fun _ => k))
  (at level 100, right associativity) : tf_scope.
Local Open Scope tf_scope.

(** The tensors reachable from a value that [tidy] returns
    ([getTensorsInContainer]). *)
Class Container (A : Type) := tensorsIn : A -> list nat.

#[export] Instance container_tensor : Container nat := fun id => [id].

Definition live (e : Engine) (id : nat) (t : Tensor) : Prop :=
  registry e !! id = Some (mkObj t false).

Module tf.

(** [dispose] on a tensor object: idempotent. *)
Definition disposeTensor (id : nat) (e : Engine) : Engine :=
  mkEngine (alter disposed id (registry e))
           (nextTensorId e) (scopeStack e).

Definition track (id : nat) (ss : list (list nat)) : list (list nat) :=
  match ss with
  | [] => []
  | s :: rest => (s ++ [id]) :: rest
  end.

(** A new tensor object: it takes the next id and is tracked by the
    innermost scope. *)
Definition register (t : Tensor) (e : Engine) : Engine :=
  mkEngine (<[nextTensorId e := mkObj t false]> (registry e))
           (S (nextTensorId e))
           (track (nextTensorId e) (scopeStack e)).

Definition makeTensor (t : Tensor) : TF nat :=
  fun e => (register t e, Ok (nextTensorId e)).

(** Reading the data of a tensor through [dataSync]: the tensor checks
    first that it has not been disposed. *)
Definition readTensor (id : nat) : TF Tensor :=
  fun e =>
    match registry e !! id with
    | Some o => if isDisposed o then (e, Throw Disposed) else (e, Ok (data o))
    | None => (e, Throw InvalidArgument)
    end.

(** [x.throwIfDisposed()], the first step of every method of a tensor. *)
Definition throwIfDisposed (id : nat) : TF unit :=
  fun e =>
    match registry e !! id with
    | Some o => if isDisposed o then (e, Throw Disposed) else (e, Ok tt)
    | None => (e, Throw InvalidArgument)
    end.

(** Reading the data of an operand inside a kernel.  The function form
    of an operation does not check its operands: on a disposed tensor
    the backend finds no data and fails. *)
Definition kernelRead (id : nat) : TF Tensor :=
  fun e =>
    match registry e !! id with
    | Some o =>
        if isDisposed o then (e, Throw BackendFailure) else (e, Ok (data o))
    | None => (e, Throw InvalidArgument)
    end.

(** [x.shape]: a plain property, readable after [dispose]. *)
Definition shapeOf (id : nat) : TF (list nat) :=
  fun e =>
    match registry e !! id with
    | Some o => (e, Ok (shape (data o)))
    | None => (e, Throw InvalidArgument)
    end.

Definition dispose (id : nat) : TF unit :=
  fun e => (disposeTensor id e, Ok tt).

Definition startScope (e : Engine) : Engine :=
  mkEngine (registry e) (nextTensorId e) ([] :: scopeStack e).

(** [endScope(result)]: dispose what the scope tracked and the result
    does not hold, pop the scope, and track in the parent scope the
    result tensors that were made in this one. *)
Definition endScope (result : list nat) (e : Engine) : Engine :=
  match scopeStack e with
  | [] => e
  | tracked :: rest =>
      mkEngine
        (registry
           (foldr disposeTensor e
              (filter (fun id => id ∉ result) tracked)))
        (nextTensorId e)
        (foldl (fun ss id => track id ss) rest
           (filter (fun id => id ∈ tracked) result))
  end.

(** [tf.tidy(fn)]: the scope is closed on return and on throw. *)
Definition closeScope {A} `{Container A} (r : Engine * Result A)
  : Engine * Result A :=
  match r with
  | (e', Ok a) => (endScope (tensorsIn a) e', Ok a)
  | (e', Throw err) => (endScope [] e', Throw err)
  end.

Definition tidy {A} `{Container A} (fn : TF A) : TF A :=
  fun e => closeScope (fn (startScope e)).

(** Every operation of the library runs in a scope of its own (the [op]
    wrapper): the tensors it converts from array or number operands are
    disposed when it ends, and its result passes to the caller's
    scope. *)
Definition op {A} `{Container A} (fn : TF A) : TF A := tidy fn.

(** What an operation accepts for an operand: a tensor, a number, an
    array literal, or [null]. *)
Inductive TensorLike :=
| ofTensor (id : nat)
| ofNumber (q : Q)
| ofArray (l : list Q)
| ofNull.

Definition convertToTensor (x : TensorLike) : TF nat :=
  match x with
  | ofTensor id => ret id
  | ofNumber q => makeTensor (scalar q)
  | ofArray l => makeTensor (tensor1d l)
  | ofNull => throw InvalidArgument
  end.

Definition binaryOp (f : Q -> Q -> Q) (a b : TensorLike) : TF nat :=
  op (
    ia <- convertToTensor a ;;
    ib <- convertToTensor b ;;
    ta <- kernelRead ia ;;
    tb <- kernelRead ib ;;
    t <- liftR (Kernel.broadcastOp f ta tb) ;;
    makeTensor t).

Definition mul := binaryOp Qmult.
Definition div := binaryOp Qdiv.
Definition sub := binaryOp Qminus.
Definition add := binaryOp Qplus.

Definition slice (x : nat) (begin : nat * nat) (size : Z * Z) : TF nat :=
  op (
    t <- kernelRead x ;;
    r <- liftR (Kernel.slice t begin size) ;;
    makeTensor r).

Fixpoint readAll (xs : list nat) : TF (list Tensor) :=
  match xs with
  | [] => ret []
  | x :: xs' => t <- kernelRead x ;; ts <- readAll xs' ;; ret (t :: ts)
  end.

Definition concat2d (xs : list nat) (axis : nat) : TF nat :=
  op (
    ts <- readAll xs ;;
    r <- liftR (Kernel.concat2d ts axis) ;;
    makeTensor r).

Definition transpose (x : nat) : TF nat :=
  op (
    t <- kernelRead x ;;
    r <- liftR (Kernel.transpose t) ;;
    makeTensor r).

(** The method forms, [x.slice(begin, size)] and [x.transpose()]. *)
Definition sliceOf (x : nat) (begin : nat * nat) (size : Z * Z) : TF nat :=
  throwIfDisposed x ;;; slice x begin size.

Definition transposeOf (x : nat) : TF nat :=
  throwIfDisposed x ;;; transpose x.

(** [tf.tensor2d(values, shape)] on a flat array: a constructor, with
    no scope of its own. *)
Definition tensor2d (vals : list Q) (shp : nat * nat) : TF nat :=
  if (length vals =? fst shp * snd shp)%nat
  then makeTensor (mkTensor [fst shp; snd shp] vals)
  else throw ShapeMismatch.

Definition dataSync (x : nat) : TF (list Q) :=
  t <- readTensor x ;; ret (values t).

End tf.

(** ** The resampling primitive, [tf.image.cropAndResize] *)

(** The value of one output entry: for image [image], box [box] (four
    normalized coordinates), batch index [bInd] and crop size
    [cropSize], the entry at row [y], column [x], channel [c].  Each
    backend has its own rule; the operations below are stated for any. *)
Class Resampler :=
  sample : Tensor -> list Q -> nat -> nat * nat -> nat -> nat -> nat -> Q.

Definition ofNat (n : nat) : Q := inject_Z (Z.of_nat n).

Module image.

(** The entries of the output, in row-major order over box, row, column
    and channel. *)
Definition cropValues `{Resampler}
    (img : Tensor) (boxes : list Q) (boxInd : list nat) (cropSize : nat * nat)
    (numBoxes channels : nat) : list Q :=
  flat_map (fun b =>
    flat_map (fun y =>
      flat_map (fun x =>
        map (fun c =>
               sample img (take 4 (drop (4 * b) boxes))
                      (nth b boxInd 0%nat) cropSize y x c)
            (seq 0 channels))
        (seq 0 (snd cropSize)))
      (seq 0 (fst cropSize)))
    (seq 0 numBoxes).

Definition cropAndResize `{Resampler}
    (image boxes : nat) (boxInd : list nat) (cropSize : nat * nat) : TF nat :=
  tf.op (
    ind <- tf.makeTensor (tensor1d (map ofNat boxInd)) ;;
    imageShape <- tf.shapeOf image ;;
    boxesShape <- tf.shapeOf boxes ;;
    match imageShape, boxesShape with
    | [batch; height; width; channels], [numBoxes; 4%nat] =>
        if negb (length boxInd =? numBoxes)%nat then throw ShapeMismatch
        else if negb ((1 <=? fst cropSize)%nat && (1 <=? snd cropSize)%nat)
        then throw InvalidArgument
        else
          img <- tf.kernelRead image ;;
          bxs <- tf.kernelRead boxes ;;
          tf.makeTensor
            (mkTensor [numBoxes; fst cropSize; snd cropSize; channels]
               (cropValues img (values bxs) boxInd cropSize numBoxes
                  channels))
    | _, _ => throw ShapeMismatch
    end).

(** The rule of the CPU backend: bilinear interpolation, with 0 outside
    the image. *)
Definition bilinear : Resampler :=
  fun img box bInd cropSize y x c =>
    match shape img, box with
    | [batch; height; width; channels], [y1; x1; y2; x2] =>
        if (batch <=? bInd)%nat then 0
        else
          let cropHeight := fst cropSize in
          let cropWidth := snd cropSize in
          let heightScale :=
            if (1 <? cropHeight)%nat
            then (y2 - y1) * (ofNat height - 1) / (ofNat cropHeight - 1)
            else 0 in
          let widthScale :=
            if (1 <? cropWidth)%nat
            then (x2 - x1) * (ofNat width - 1) / (ofNat cropWidth - 1)
            else 0 in
          let yInd :=
            if (1 <? cropHeight)%nat
            then y1 * (ofNat height - 1) + ofNat y * heightScale
            else (1 # 2) * (y1 + y2) * (ofNat height - 1) in
          let xInd :=
            if (1 <? cropWidth)%nat
            then x1 * (ofNat width - 1) + ofNat x * widthScale
            else (1 # 2) * (x1 + x2) * (ofNat width - 1) in
          if negb (Qle_bool 0 yInd) || negb (Qle_bool yInd (ofNat height - 1))
          then 0
          else if negb (Qle_bool 0 xInd)
                  || negb (Qle_bool xInd (ofNat width - 1))
          then 0
          else
            let pixel (row col : Z) :=
              nth (c + Z.to_nat col * channels
                   + Z.to_nat row * (width * channels)
                   + bInd * (height * width * channels))%nat
                  (values img) 0 in
            let topInd := Qfloor yInd in
            let bottomInd := Qceiling yInd in
            let leftInd := Qfloor xInd in
            let rightInd := Qceiling xInd in
            let yLerp := yInd - inject_Z topInd in
            let xLerp := xInd - inject_Z leftInd in
            let top := pixel topInd leftInd
                       + (pixel topInd rightInd - pixel topInd leftInd) * xLerp in
            let bottom := pixel bottomInd leftInd
                          + (pixel bottomInd rightInd - pixel bottomInd leftInd)
                            * xLerp in
            top + (bottom - top) * yLerp
    | _, _ => 0
    end.

End image.

(** ** [box.ts] *)

(** The facial bounding box.  The fields hold tensor ids.  [startPoint]
    may be absent at run time, which is the case [disposeBox] guards
    against; the other two fields are present, as the type declares.
    [landmarks] is carried along and never read. *)
Record Box := mkBox {
  startPoint : option nat;      (* upper left hand corner *)
  endPoint : nat;               (* lower right hand corner *)
  startEndTensor : nat;         (* concatenation of start and end points *)
  landmarks : option (list (Q * Q))
}.

Record cpuBox := mkCpuBox {
  cpuStartPoint : Q * Q;
  cpuEndPoint : Q * Q;
  cpuLandmarks : option (list (Q * Q))
}.

(** The tensors of a box, in the order of the fields of the object
    that [createBox] builds. *)
#[export] Instance container_box : Container Box :=
  fun b => startEndTensor b
           :: from_option (fun s => [s]) [] (startPoint b)
           ++ [endPoint b].

(** A field that may be [null], as an operand. *)
Definition operand (o : option nat) : tf.TensorLike :=
  match o with
  | Some id => tf.ofTensor id
  | None => tf.ofNull
  end.

Definition disposeBox (box : option Box) : TF unit :=
  match box with
  | Some b =>
      match startPoint b with
      | Some s =>
          tf.dispose (startEndTensor b) ;;;
          tf.dispose s ;;;
          tf.dispose (endPoint b)
      | None => ret tt
      end
  | None => ret tt
  end.

Definition createBox (startEndTensor : nat) (startPoint endPoint : option nat)
  : TF Box :=
  s <- match startPoint with
       | Some s => ret s
       | None => tf.slice startEndTensor (0, 0)%nat (-1, 2)%Z
       end ;;
  e <- match endPoint with
       | Some e => ret e
       | None => tf.slice startEndTensor (0, 2)%nat (-1, 2)%Z
       end ;;
  ret (mkBox (Some s) e startEndTensor None).

(** The factor of [scaleBoxCoordinates]: [tf.Tensor1D | [number, number]]. *)
Inductive Factor :=
| factorTensor (id : nat)
| factorPair (fx fy : Q).

Definition factorOperand (f : Factor) : tf.TensorLike :=
  match f with
  | factorTensor id => tf.ofTensor id
  | factorPair fx fy => tf.ofArray [fx; fy]
  end.

Definition scaleBoxCoordinates (box : Box) (factor : Factor) : TF Box :=
  newStart <- tf.mul (operand (startPoint box)) (factorOperand factor) ;;
  newEnd <- tf.mul (tf.ofTensor (endPoint box)) (factorOperand factor) ;;
  c <- tf.concat2d [newStart; newEnd] 1 ;;
  createBox c None None.

Definition getBoxSize (box : cpuBox) : Q * Q :=
  (Qabs (fst (cpuEndPoint box) - fst (cpuStartPoint box)),
   Qabs (snd (cpuEndPoint box) - snd (cpuStartPoint box))).

Definition getBoxCenter (box : cpuBox) : Q * Q :=
  (fst (cpuStartPoint box)
   + (fst (cpuEndPoint box) - fst (cpuStartPoint box)) / 2,
   snd (cpuStartPoint box)
   + (snd (cpuEndPoint box) - snd (cpuStartPoint box)) / 2).

(** Lines 83 to 90: the box handed to the resampling primitive. *)
Definition normalizedCoords (xyxy : nat) (height width : option nat)
  : TF nat :=
  c1 <- tf.sliceOf xyxy (0, 1)%nat (-1, 1)%Z ;;
  c0 <- tf.sliceOf xyxy (0, 0)%nat (-1, 1)%Z ;;
  c3 <- tf.sliceOf xyxy (0, 3)%nat (-1, 1)%Z ;;
  c2 <- tf.sliceOf xyxy (0, 2)%nat (-1, 1)%Z ;;
  yxyx <- tf.concat2d [c1; c0; c3; c2] 0 ;;
  tr <- tf.transposeOf yxyx ;;
  match height, width with
  | Some h, Some w =>
      tf.div (tf.ofTensor tr) (tf.ofArray [ofNat h; ofNat w; ofNat h; ofNat w])
  | _, _ => throw NotANumber
  end.

Definition cutBoxFromImageAndResize `{Resampler}
    (box : Box) (image : nat) (cropSize : nat * nat) : TF nat :=
  imageShape <- tf.shapeOf image ;;
  let height := imageShape !! 1%nat in
  let width := imageShape !! 2%nat in
  let xyxy := startEndTensor box in
  tf.tidy (
    roundedCoords <- normalizedCoords xyxy height width ;;
    image.cropAndResize image roundedCoords [0%nat] cropSize).

(** The first two entries of a synchronized buffer, read as a pair. *)
Definition asPair (l : list Q) : TF (Q * Q) :=
  match l with
  | a :: b :: _ => ret (a, b)
  | _ => throw NotANumber
  end.

(** Lines 97 to 100: the corners of a box, synchronized to host memory. *)
Definition toCpuBox (box : Box) : TF cpuBox :=
  s <- match startPoint box with
       | Some s => tf.dataSync s
       | None => throw InvalidArgument
       end ;;
  e <- tf.dataSync (endPoint box) ;;
  sp <- asPair s ;;
  ep <- asPair e ;;
  ret (mkCpuBox sp ep None).

(** The default of the [factor] parameter of [enlargeBox]. *)
Definition defaultFactor : Q := 3 # 2.

Definition enlargeBox (box : Box) (factor : Q) : TF Box :=
  tf.tidy (
    boxCPU <- toCpuBox box ;;
    let center := getBoxCenter boxCPU in
    let sz := getBoxSize boxCPU in
    size <- tf.tensor2d [fst sz; snd sz] (1, 2)%nat ;;
    newSize <- (half <- tf.div (tf.ofTensor size) (tf.ofNumber 2) ;;
                tf.mul (tf.ofTensor half) (tf.ofNumber factor)) ;;
    newStart <- tf.sub (tf.ofArray [fst center; snd center])
                       (tf.ofTensor newSize) ;;
    newEnd <- tf.add (tf.ofArray [fst center; snd center])
                     (tf.ofTensor newSize) ;;
    c <- tf.concat2d [newStart; newEnd] 1 ;;
    createBox c (Some newStart) (Some newEnd)).

(** ** Engines and boxes that the statements speak about *)

(** A tensor that an operation made from an array or number operand and
    disposed when it ended: it took the next id and no scope tracks
    it. *)
Definition spent (t : Tensor) (e : Engine) : Engine :=
  mkEngine (<[nextTensorId e := mkObj t true]> (registry e))
           (S (nextTensorId e))
           (scopeStack e).

(** Every tensor object of the engine has an id below the next one. *)
Definition wfEngine (e : Engine) : Prop :=
  map_Forall (fun id _ => (id < nextTensorId e)%nat) (registry e).

#[export] Instance wfEngine_dec e : Decision (wfEngine e).
Proof. unfold wfEngine. apply _. Defined.

(** The ids appended to the innermost scope, when there is one. *)
Definition extendTop (added : list nat) (ss : list (list nat))
  : list (list nat) :=
  match ss with
  | [] => []
  | s :: rest => (s ++ added) :: rest
  end.

(** [e'] comes from [e] by making new tensors only: the tensor objects
    of [e] are untouched, and the scopes of [e] have only gained new
    ids. *)
Definition grows (e e' : Engine) : Prop :=
  (nextTensorId e <= nextTensorId e')%nat
  /\ (forall id, (id < nextTensorId e)%nat ->
                 registry e' !! id = registry e !! id)
  /\ exists added,
       scopeStack e' = extendTop added (scopeStack e)
       /\ Forall (fun id => (nextTensorId e <= id < nextTensorId e')%nat) added.

(** A computation that only makes new tensors, whether it returns or
    throws. *)
Definition framed {A} (m : TF A) : Prop :=
  forall e, wfEngine e -> grows e (fst (m e)) /\ wfEngine (fst (m e)).

(** A computation whose result, when it returns, is a tensor made
    during the call and still live. *)
Definition makesTensor (m : TF nat) : Prop :=
  forall e e' id,
    wfEngine e -> m e = (e', Ok id) ->
    (nextTensorId e <= id < nextTensorId e')%nat /\ exists t, live e' id t.

(** The factor of [scaleBoxCoordinates] stands for the pair [(fx, fy)]. *)
Definition factorIs (e : Engine) (f : Factor) (fx fy : Q) : Prop :=
  match f with
  | factorTensor id => live e id (mkTensor [2%nat] [fx; fy])
  | factorPair x y => x = fx /\ y = fy
  end.

(** The three fields of a box are mutually consistent: the corners are
    what [createBox] derives from the combined buffer. *)
Definition consistent (e : Engine) (box : Box) : Prop :=
  exists s n vals,
    startPoint box = Some s
    /\ length vals = (n * 4)%nat
    /\ live e (startEndTensor box) (mkTensor [n; 4%nat] vals)
    /\ live e s (Kernel.firstTwo n vals)
    /\ live e (endPoint box) (Kernel.lastTwo n vals).

(** Every tensor object of [e] is the same object in [e']: neither its
    data nor its disposed flag has changed. *)
Definition preserved (e e' : Engine) : Prop :=
  forall id o, registry e !! id = Some o -> registry e' !! id = Some o.

(** [b] is a box of [e'] made after [e]: its three tensors are distinct,
    were not tensors of [e], and are live in [e']. *)
Definition freshBox (e e' : Engine) (b : Box) : Prop :=
  exists s,
    startPoint b = Some s
    /\ NoDup [s; endPoint b; startEndTensor b]
    /\ Forall (fun id => registry e !! id = None
                         /\ exists t, live e' id t)
         [s; endPoint b; startEndTensor b]
    /\ landmarks b = None.

Definition returnsFreshBox (e : Engine) (r : Engine * Result Box) : Prop :=
  match snd r with
  | Ok b => freshBox e (fst r) b
  | Throw _ => True
  end.

(** Pairs of numbers, compared and combined per axis. *)
Definition Qeq2 (p q : Q * Q) : Prop := fst p == fst q /\ snd p == snd q.
Definition scale2 (k : Q) (p : Q * Q) : Q * Q := (k * fst p, k * snd p).
Definition add2 (p q : Q * Q) : Q * Q := (fst p + fst q, snd p + snd q).
Definition sub2 (p q : Q * Q) : Q * Q := (fst p - fst q, snd p - snd q).

(** The box of the examples: start [[10,20]], end [[30,50]], so center
    [[20,35]] and size [[20,30]]. *)
Definition exampleEngine : Engine :=
  mkEngine
    (<[0%nat := mkObj (mkTensor [1; 2]%nat [10; 20]) false]>
       (<[1%nat := mkObj (mkTensor [1; 2]%nat [30; 50]) false]>
          (<[2%nat := mkObj (mkTensor [1; 4]%nat [10; 20; 30; 50]) false]>
             ∅)))
    3 [].

Definition exampleBox : Box := mkBox (Some 0%nat) 1%nat 2%nat None.

(** The buffer of the [createBox] example, [[0,0,10,10]], as the only
    tensor of an engine. *)
Definition bufferEngine : Engine :=
  mkEngine (<[0%nat := mkObj (mkTensor [1; 4]%nat [0; 0; 10; 10]) false]> ∅)
           1 [].

(** The box of the [scaleBoxCoordinates] example: start [[1,2]], end
    [[3,4]]. *)
Definition smallEngine : Engine :=
  mkEngine
    (<[0%nat := mkObj (mkTensor [1; 2]%nat [1; 2]) false]>
       (<[1%nat := mkObj (mkTensor [1; 2]%nat [3; 4]) false]>
          (<[2%nat := mkObj (mkTensor [1; 4]%nat [1; 2; 3; 4]) false]> ∅)))
    3 [].

(** A normalized coordinate inside the image. *)
Definition in01 (q : Q) : Prop := 0 <= q /\ q <= 1.

(** [cutBoxFromImageAndResize box image cropSize], run in [e], hands
    the tensor [t] to the resampling primitive as its boxes: the tensor
    is what lines 83 to 90 compute inside the scope, and the call is the
    primitive applied to it, followed by the end of the scope. *)
Definition handsOver `{Resampler}
    (e : Engine) (box : Box) (image : nat) (cropSize : nat * nat)
    (t : Tensor) : Prop :=
  exists timg e1 coords,
    live e image timg
    /\ normalizedCoords (startEndTensor box)
         (shape timg !! 1%nat) (shape timg !! 2%nat) (tf.startScope e)
       = (e1, Ok coords)
    /\ live e1 coords t
    /\ cutBoxFromImageAndResize box image cropSize e
       = tf.closeScope (image.cropAndResize image coords [0%nat] cropSize e1).

(** The example box [[10,20]]-[[30,50]] next to an image of 40 by 40
    pixels with one channel: the box reaches below the image. *)
Definition imageEngine : Engine :=
  mkEngine
    (<[3%nat := mkObj (mkTensor [1; 40; 40; 1]%nat (replicate (40 * 40) 1)) false]>
       (registry exampleEngine))
    4 [].

(** An image of shape [[1,100,100,3]] and a box that covers it. *)
Definition fullImageEngine : Engine :=
  mkEngine
    (<[0%nat := mkObj (mkTensor [1; 2]%nat [0; 0]) false]>
       (<[1%nat := mkObj (mkTensor [1; 2]%nat [100; 100]) false]>
          (<[2%nat := mkObj (mkTensor [1; 4]%nat [0; 0; 100; 100]) false]>
             (<[3%nat := mkObj (mkTensor [1; 100; 100; 3]%nat
                                  (replicate (100 * 100 * 3) 1)) false]> ∅))))
    4 [].

(** The lower and the upper corner of a box, per axis. *)
Definition minCorner (box : cpuBox) : Q * Q :=
  (Qmin (fst (cpuStartPoint box)) (fst (cpuEndPoint box)),
   Qmin (snd (cpuStartPoint box)) (snd (cpuEndPoint box))).

Definition maxCorner (box : cpuBox) : Q * Q :=
  (Qmax (fst (cpuStartPoint box)) (fst (cpuEndPoint box)),
   Qmax (snd (cpuStartPoint box)) (snd (cpuEndPoint box))).

(** The ids handed out between [e] and [e']. *)
Definition newIds (e e' : Engine) : list nat :=
  seq (nextTensorId e) (nextTensorId e' - nextTensorId e).

(** The tensors that the result of a run holds; none after a throw. *)
Definition resultTensors {A} `{Container A} (r : Engine * Result A)
  : list nat :=
  match snd r with
  | Ok a => tensorsIn a
  | Throw _ => []
  end.

(** The tensor object [id] of [e] has been disposed. *)
Definition isReleased (e : Engine) (id : nat) : Prop :=
  isDisposed <$> registry e !! id = Some true.

(** A computation that accounts for the tensors it makes: when it ends,
    by return or by throw, the innermost scope has only been extended,
    and each tensor made is live and tracked by that scope, or has been
    disposed. *)
Definition accounted {A} (m : TF A) : Prop :=
  forall e s rest,
    wfEngine e -> scopeStack e = s :: rest ->
    exists added,
      scopeStack (fst (m e)) = (s ++ added) :: rest
      /\ forall id,
           id ∈ newIds e (fst (m e)) ->
           (id ∈ added /\ exists t, live (fst (m e)) id t)
           \/ isReleased (fst (m e)) id.

(** The disposed flags of the tensors made between [e] and [e'], in
    the order of making. *)
Definition disposedFlags (e e' : Engine) : list (option bool) :=
  map (fun id => isDisposed <$> registry e' !! id) (newIds e e').

(** The flags after [scaleBoxCoordinates] on a well-formed box.  With a
    tensor for factor: the two products, the combined buffer and the
    two points.  With a pair: each product is preceded by the tensor
    converted from the pair, which the product disposes when it ends. *)
Definition flagsAfterScale (f : Factor) : list bool :=
  match f with
  | factorTensor _ => [false; false; false; false; false]
  | factorPair _ _ => [true; false; true; false; false; false; false]
  end.

(** A box of [e] with live corners [[a,b]] and [[c,d]] whose combined
    buffer is [[a,b,c,d]]. *)
Definition boxHolds (e : Engine) (box : Box) (a b c d : Q) : Prop :=
  exists s,
    startPoint box = Some s
    /\ live e s (mkTensor [1; 2]%nat [a; b])
    /\ live e (endPoint box) (mkTensor [1; 2]%nat [c; d])
    /\ live e (startEndTensor box) (mkTensor [1; 4]%nat [a; b; c; d]).

(** The box holds live corners equal, as numbers, to [start] and
    [finish], and the matching combined buffer. *)
Definition cornersAre (e : Engine) (box : Box) (start finish : Q * Q)
  : Prop :=
  exists a b c d,
    boxHolds e box a b c d /\ Qeq2 (a, b) start /\ Qeq2 (c, d) finish.


(** Two boxes in one buffer of two rows, next to an image of 2 by 2
    pixels with one channel. *)
Definition batchEngine : Engine :=
  mkEngine
    (<[0%nat := mkObj (mkTensor [2; 4]%nat [0; 0; 1; 1; 1; 1; 2; 2]) false]>
       (<[1%nat := mkObj (mkTensor [1; 2; 2; 1]%nat [1; 2; 3; 4]) false]> ∅))
    2 [].

(** Two buffers with the same data, next to an image of 2 by 2 pixels
    with one channel. *)
Definition twinEngine : Engine :=
  mkEngine
    (<[0%nat := mkObj (mkTensor [1; 4]%nat [0; 0; 2; 2]) false]>
       (<[1%nat := mkObj (mkTensor [1; 4]%nat [0; 0; 2; 2]) false]>
          (<[2%nat := mkObj (mkTensor [1; 2; 2; 1]%nat [1; 2; 3; 4]) false]>
             ∅)))
    3 [].

(** A box whose corners are not in order on the first axis: start
    [[30,20]], end [[10,50]]. *)
Definition crossedEngine : Engine :=
  mkEngine
    (<[0%nat := mkObj (mkTensor [1; 2]%nat [30; 20]) false]>
       (<[1%nat := mkObj (mkTensor [1; 2]%nat [10; 50]) false]>
          (<[2%nat := mkObj (mkTensor [1; 4]%nat [30; 20; 10; 50]) false]>
             ∅)))
    3 [].

(** A buffer of three columns, and a buffer of two rows and five
    columns. *)
Definition narrowEngine : Engine :=
  mkEngine (<[0%nat := mkObj (mkTensor [1; 3]%nat [0; 0; 10]) false]> ∅)
           1 [].

Definition wideEngine : Engine :=
  mkEngine
    (<[0%nat := mkObj (mkTensor [2; 5]%nat [1; 2; 3; 4; 5; 6; 7; 8; 9; 10])
                  false]> ∅)
    1 [].

(** ** Facts about the kernels *)

Section KernelFacts.

Import Kernel.

Lemma length_rowsOf n w l : length (rowsOf n w l) = n.
Proof. revert l; induction n as [|n IH]; intros l; simpl; [done | by rewrite IH]. Qed.

Lemma concat_rowsOf n w l :
  length l = (n * w)%nat -> concat (rowsOf n w l) = l.
Proof.
  revert l; induction n as [|n IH]; intros l Hl; simpl in *.
  - by destruct l.
  - rewrite IH; [apply take_drop | rewrite length_drop; lia].
Qed.

Lemma rowsOf_width n w l :
  length l = (n * w)%nat -> Forall (fun row => length row = w) (rowsOf n w l).
Proof.
  revert l; induction n as [|n IH]; intros l Hl; simpl in *; constructor.
  - rewrite length_take; lia.
  - apply IH. rewrite length_drop; lia.
Qed.

Lemma rowsOf_concat n w (rs : list (list Q)) :
  length rs = n ->
  Forall (fun row => length row = w) rs ->
  rowsOf n w (concat rs) = rs.
Proof.
  intros <-. induction 1 as [|row rs Hrow _ IH]; simpl; [done|].
  rewrite take_app_length' by done.
  rewrite drop_app_length' by done.
  by rewrite IH.
Qed.

Lemma zip_with_app_nil n (rs : list (list Q)) :
  length rs = n -> zip_with app rs (replicate n []) = rs.
Proof.
  intros <-. induction rs as [|row rs IH]; simpl; [done|].
  by rewrite app_nil_r, IH.
Qed.

Lemma zip_with_take_drop k (rs : list (list Q)) :
  zip_with app (map (take k) rs) (map (drop k) rs) = rs.
Proof.
  induction rs as [|row rs IH]; simpl; [done|].
  by rewrite take_drop, IH.
Qed.

Lemma Kernel_slice_firstTwo n vals :
  slice (mkTensor [n; 4%nat] vals) (0, 0)%nat (-1, 2)%Z = Ok (firstTwo n vals).
Proof.
  unfold slice, firstTwo; simpl.
  rewrite Nat.sub_0_r, drop_0. do 3 f_equal.
  rewrite take_ge by (rewrite length_rowsOf; lia).
  done.
Qed.

Lemma Kernel_slice_lastTwo n vals :
  length vals = (n * 4)%nat ->
  slice (mkTensor [n; 4%nat] vals) (0, 2)%nat (-1, 2)%Z = Ok (lastTwo n vals).
Proof.
  intros Hl. unfold slice, lastTwo; simpl.
  rewrite Nat.sub_0_r, drop_0. do 3 f_equal.
  rewrite take_ge by (rewrite length_rowsOf; lia).
  apply map_ext_Forall.
  eapply Forall_impl; [apply rowsOf_width, Hl|].
  intros row Hrow; simpl in *. apply take_ge. rewrite length_drop. lia.
Qed.

Lemma Kernel_concat2d_halves n vals :
  length vals = (n * 4)%nat ->
  concat2d [firstTwo n vals; lastTwo n vals] 1 = Ok (mkTensor [n; 4%nat] vals).
Proof.
  intros Hl. unfold concat2d, firstTwo, lastTwo; simpl.
  rewrite Nat.eqb_refl; simpl. do 2 f_equal.
  unfold rows2; simpl.
  pose proof (rowsOf_width n 4 vals Hl) as Hw.
  pose proof (length_rowsOf n 4 vals) as Hn.
  rewrite !rowsOf_concat.
  - rewrite zip_with_app_nil by (by rewrite length_map).
    rewrite zip_with_take_drop. by apply concat_rowsOf.
  - by rewrite length_map.
  - apply Forall_map. eapply Forall_impl; [exact Hw|].
    intros row Hrow; simpl in *. rewrite length_drop; lia.
  - by rewrite length_map.
  - apply Forall_map. eapply Forall_impl; [exact Hw|].
    intros row Hrow; simpl in *. rewrite length_take; lia.
Qed.

End KernelFacts.

(** ** Running computations *)

Lemma bind_ok {A B} (m : TF A) (k : A -> TF B) e e1 a :
  m e = (e1, Ok a) -> bind m k e = k a e1.
Proof. intros H. unfold bind. by rewrite H. Qed.

Lemma bind_inv {A B} (m : TF A) (k : A -> TF B) e e' b :
  bind m k e = (e', Ok b) ->
  exists a e1, m e = (e1, Ok a) /\ k a e1 = (e', Ok b).
Proof.
  unfold bind. destruct (m e) as [e1 [a|err]]; intros H; [eauto | discriminate].
Qed.

Lemma live_register_new t e : live (tf.register t e) (nextTensorId e) t.
Proof. unfold live, tf.register; simpl. apply lookup_insert_eq. Qed.

Lemma live_register_old t e id t' :
  live e id t' -> id <> nextTensorId e -> live (tf.register t e) id t'.
Proof.
  unfold live, tf.register; simpl. intros H Hne.
  by rewrite lookup_insert_ne.
Qed.

Lemma live_lt e id t : wfEngine e -> live e id t -> (id < nextTensorId e)%nat.
Proof. intros Hwf H. exact (Hwf _ _ H). Qed.

Lemma wfEngine_register t e : wfEngine e -> wfEngine (tf.register t e).
Proof.
  intros Hwf id o. unfold tf.register; simpl.
  destruct (decide (id = nextTensorId e)) as [Heq|Hne].
  - lia.
  - rewrite lookup_insert_ne by done. intros H. apply Hwf in H. lia.
Qed.

Lemma readTensor_live e id t : live e id t -> tf.readTensor id e = (e, Ok t).
Proof. unfold live, tf.readTensor. by intros ->. Qed.

Lemma shapeOf_live e id t : live e id t -> tf.shapeOf id e = (e, Ok (shape t)).
Proof. unfold live, tf.shapeOf. by intros ->. Qed.

(** ** The frame: what a computation leaves alone *)

Lemma extendTop_nil ss : extendTop [] ss = ss.
Proof. destruct ss; simpl; [done | by rewrite app_nil_r]. Qed.

Lemma extendTop_app a1 a2 ss :
  extendTop a2 (extendTop a1 ss) = extendTop (a1 ++ a2) ss.
Proof. destruct ss; simpl; [done | by rewrite app_assoc]. Qed.

Lemma track_extendTop id ss : tf.track id ss = extendTop [id] ss.
Proof. by destruct ss. Qed.

Lemma foldl_track ids ss :
  foldl (fun ss id => tf.track id ss) ss ids = extendTop ids ss.
Proof.
  revert ss; induction ids as [|id ids IH]; intros ss; simpl.
  - by rewrite extendTop_nil.
  - by rewrite IH, track_extendTop, extendTop_app.
Qed.

Lemma grows_refl e : grows e e.
Proof.
  split; [done|]. split; [done|].
  exists []. by rewrite extendTop_nil.
Qed.

Lemma grows_trans e1 e2 e3 : grows e1 e2 -> grows e2 e3 -> grows e1 e3.
Proof.
  intros (Hn1 & Hr1 & a1 & Hs1 & Ha1) (Hn2 & Hr2 & a2 & Hs2 & Ha2).
  split; [lia|]. split.
  - intros id Hid. rewrite Hr2 by lia. by apply Hr1.
  - exists (a1 ++ a2). split.
    + by rewrite Hs2, Hs1, extendTop_app.
    + apply Forall_app. split.
      * eapply Forall_impl; [exact Ha1 | simpl; intros; lia].
      * eapply Forall_impl; [exact Ha2 | simpl; intros; lia].
Qed.

Lemma grows_register t e : grows e (tf.register t e).
Proof.
  split; [simpl; lia|]. split.
  - intros id Hid. simpl. apply lookup_insert_ne. lia.
  - exists [nextTensorId e]. simpl. split; [apply track_extendTop|].
    repeat constructor; lia.
Qed.

Lemma grows_live e e' id t :
  grows e e' -> (id < nextTensorId e)%nat -> live e id t -> live e' id t.
Proof. intros (_ & Hr & _) Hid H. unfold live. by rewrite Hr. Qed.

Lemma grows_startScope e e' :
  grows (tf.startScope e) e' ->
  exists added,
    scopeStack e' = added :: scopeStack e
    /\ Forall (fun id => (nextTensorId e <= id < nextTensorId e')%nat) added.
Proof. intros (_ & _ & added & Hs & Ha). exists added. by split. Qed.

(** Disposing a list of tensors touches those and no other. *)
Lemma registry_disposeAll ids e id :
  registry (foldr tf.disposeTensor e ids) !! id
  = if decide (id ∈ ids)
    then disposed <$> registry e !! id
    else registry e !! id.
Proof.
  induction ids as [|x ids IH].
  - done.
  - cbn [foldr tf.disposeTensor registry].
    destruct (decide (id = x)) as [Heq|Hne].
    + subst x. rewrite lookup_alter_eq, IH.
      rewrite (decide_True (P := id ∈ id :: ids)) by (apply elem_of_cons; by left).
      destruct (decide (id ∈ ids)); [|done].
      by destruct (registry e !! id).
    + rewrite lookup_alter_ne by done. rewrite IH.
      destruct (decide (id ∈ ids)).
      * by rewrite (decide_True (P := id ∈ x :: ids))
          by (apply elem_of_cons; by right).
      * rewrite (decide_False (P := id ∈ x :: ids)); [done|].
        rewrite elem_of_cons. tauto.
Qed.

Lemma nextTensorId_disposeAll ids e :
  nextTensorId (foldr tf.disposeTensor e ids) = nextTensorId e.
Proof. induction ids; simpl; done. Qed.

Lemma scopeStack_disposeAll ids e :
  scopeStack (foldr tf.disposeTensor e ids) = scopeStack e.
Proof. induction ids; simpl; done. Qed.

Lemma wfEngine_disposeAll ids e :
  wfEngine e -> wfEngine (foldr tf.disposeTensor e ids).
Proof.
  intros Hwf id o. rewrite registry_disposeAll, nextTensorId_disposeAll.
  destruct (decide (id ∈ ids)); [|apply Hwf].
  destruct (registry e !! id) eqn:E; [|done]. intros _. by apply (Hwf _ _ E).
Qed.

(** Closing the scope that [startScope] opened on [e]. *)
Lemma endScope_grows e e' result :
  wfEngine e' ->
  grows (tf.startScope e) e' ->
  grows e (tf.endScope result e') /\ wfEngine (tf.endScope result e').
Proof.
  intros Hwf Hg.
  destruct (grows_startScope _ _ Hg) as (added & Hs & Ha).
  destruct Hg as (Hn & Hr & _). simpl in Hn, Hr.
  unfold tf.endScope. rewrite Hs. split; [split; [|split]|].
  - simpl; lia.
  - intros id Hid. simpl. rewrite registry_disposeAll.
    rewrite decide_False; [by apply Hr|].
    intros Hin. apply list_elem_of_filter in Hin as [_ Hin].
    rewrite Forall_forall in Ha. apply Ha in Hin. lia.
  - exists (filter (fun id => id ∈ added) result). simpl. split.
    + apply foldl_track.
    + apply Forall_forall. intros id Hin.
      apply list_elem_of_filter in Hin as [Hin _].
      rewrite Forall_forall in Ha. by apply Ha.
  - intros id o. simpl. intros H.
    apply (wfEngine_disposeAll _ _ Hwf) in H.
    by rewrite nextTensorId_disposeAll in H.
Qed.

Lemma live_endScope e' result tracked rest id t :
  scopeStack e' = tracked :: rest ->
  live e' id t ->
  id ∈ result \/ id ∉ tracked ->
  live (tf.endScope result e') id t.
Proof.
  intros Hs Hl Hid. unfold live, tf.endScope. rewrite Hs; simpl.
  rewrite registry_disposeAll. rewrite decide_False; [done|].
  intros Hin. apply list_elem_of_filter in Hin as [Hn Hin]. tauto.
Qed.

(** ** Operations and their scopes *)

Lemma kernelRead_live e id t : live e id t -> tf.kernelRead id e = (e, Ok t).
Proof. unfold live, tf.kernelRead. by intros ->. Qed.

Lemma throwIfDisposed_live e id t :
  live e id t -> tf.throwIfDisposed id e = (e, Ok tt).
Proof. unfold live, tf.throwIfDisposed. by intros ->. Qed.

Lemma readAll_live e xs ts :
  Forall2 (live e) xs ts -> tf.readAll xs e = (e, Ok ts).
Proof.
  induction 1 as [|x t xs ts Hx _ IH]; simpl; [done|].
  rewrite (bind_ok _ _ _ _ _ (kernelRead_live _ _ _ Hx)).
  by rewrite (bind_ok _ _ _ _ _ IH).
Qed.

Lemma live_spent_old t e id t' :
  live e id t' -> id <> nextTensorId e -> live (spent t e) id t'.
Proof.
  unfold live, spent; simpl. intros Hl Hne. by rewrite lookup_insert_ne.
Qed.

Lemma wfEngine_spent t e : wfEngine e -> wfEngine (spent t e).
Proof.
  intros Hwf id o. unfold spent; simpl.
  destruct (decide (id = nextTensorId e)) as [Heq|Hne].
  - lia.
  - rewrite lookup_insert_ne by done. intros Hl. apply Hwf in Hl. lia.
Qed.

Lemma filter_keep_one (n : nat) :
  filter (fun id => id ∉ [n]) [n] = []
  /\ filter (fun id => id ∈ [n]) [n] = [n].
Proof.
  split.
  - rewrite filter_cons_False; [done|]. intros Hn. apply Hn.
    apply elem_of_cons. by left.
  - rewrite filter_cons_True; [done|]. apply elem_of_cons. by left.
Qed.

Lemma filter_keep_second (n : nat) :
  filter (fun id => id ∉ [S n]) [n; S n] = [n]
  /\ filter (fun id => id ∈ [n; S n]) [S n] = [S n].
Proof.
  split.
  - rewrite filter_cons_True.
    + rewrite filter_cons_False; [done|]. intros Hn. apply Hn.
      apply elem_of_cons. by left.
    + rewrite elem_of_cons, elem_of_nil. lia.
  - rewrite filter_cons_True; [done|]. rewrite !elem_of_cons. auto.
Qed.

(** An operation that makes its result and nothing else. *)
Lemma op_result (fn : TF nat) e r :
  fn (tf.startScope e)
  = (tf.register r (tf.startScope e), Ok (nextTensorId e)) ->
  tf.op fn e = (tf.register r e, Ok (nextTensorId e)).
Proof.
  intros Hrun. unfold tf.op, tf.tidy, tf.closeScope. rewrite Hrun.
  f_equal. unfold tf.endScope, tensorsIn, container_tensor.
  cbn [scopeStack tf.register tf.startScope tf.track nextTensorId app].
  destruct (filter_keep_one (nextTensorId e)) as [-> ->].
  reflexivity.
Qed.

(** An operation that converts one operand and makes its result: the
    converted tensor is disposed when the operation ends. *)
Lemma op_result_temp (fn : TF nat) e t r :
  fn (tf.startScope e)
  = (tf.register r (tf.register t (tf.startScope e)),
     Ok (S (nextTensorId e))) ->
  tf.op fn e = (tf.register r (spent t e), Ok (S (nextTensorId e))).
Proof.
  intros Hrun. unfold tf.op, tf.tidy, tf.closeScope. rewrite Hrun.
  f_equal. unfold tf.endScope, tensorsIn, container_tensor.
  cbn [scopeStack tf.register tf.startScope tf.track nextTensorId app].
  destruct (filter_keep_second (nextTensorId e)) as [-> ->].
  unfold tf.register, spent.
  cbn [foldr foldl tf.disposeTensor registry nextTensorId scopeStack
       tf.startScope].
  f_equal. apply map_eq. intros i.
  destruct (decide (i = nextTensorId e)) as [->|Hi].
  - rewrite lookup_alter_eq.
    rewrite lookup_insert_ne by lia. rewrite lookup_insert_eq.
    rewrite lookup_insert_ne by lia. by rewrite lookup_insert_eq.
  - rewrite lookup_alter_ne by done.
    destruct (decide (i = S (nextTensorId e))) as [->|Hi'].
    + by rewrite !lookup_insert_eq.
    + by rewrite !lookup_insert_ne by done.
Qed.

Lemma tidy_throws {A} `{Container A} (fn : TF A) e err :
  snd (fn (tf.startScope e)) = Throw err -> snd (tf.tidy fn e) = Throw err.
Proof.
  unfold tf.tidy, tf.closeScope.
  destruct (fn (tf.startScope e)) as [e1 r]; simpl. by intros ->.
Qed.

Lemma op_throws {A} `{Container A} (fn : TF A) e err :
  snd (fn (tf.startScope e)) = Throw err -> snd (tf.op fn e) = Throw err.
Proof. apply tidy_throws. Qed.

Lemma slice_ok e x t begin size r :
  live e x t -> Kernel.slice t begin size = Ok r ->
  tf.slice x begin size e = (tf.register r e, Ok (nextTensorId e)).
Proof.
  intros Hx Hr. unfold tf.slice. apply op_result.
  rewrite (bind_ok _ _ _ _ _ (kernelRead_live (tf.startScope e) _ _ Hx)).
  unfold bind, liftR. by rewrite Hr.
Qed.

Lemma sliceOf_ok e x t begin size r :
  live e x t -> Kernel.slice t begin size = Ok r ->
  tf.sliceOf x begin size e = (tf.register r e, Ok (nextTensorId e)).
Proof.
  intros Hx Hr. unfold tf.sliceOf.
  rewrite (bind_ok _ _ _ _ _ (throwIfDisposed_live _ _ _ Hx)).
  by apply slice_ok with (t := t).
Qed.

Lemma concat2d_ok e xs ts axis r :
  Forall2 (live e) xs ts -> Kernel.concat2d ts axis = Ok r ->
  tf.concat2d xs axis e = (tf.register r e, Ok (nextTensorId e)).
Proof.
  intros Hx Hr. unfold tf.concat2d. apply op_result.
  rewrite (bind_ok _ _ _ _ _ (readAll_live (tf.startScope e) _ _ Hx)).
  unfold bind, liftR. by rewrite Hr.
Qed.

Lemma transpose_ok e x t r :
  live e x t -> Kernel.transpose t = Ok r ->
  tf.transpose x e = (tf.register r e, Ok (nextTensorId e)).
Proof.
  intros Hx Hr. unfold tf.transpose. apply op_result.
  rewrite (bind_ok _ _ _ _ _ (kernelRead_live (tf.startScope e) _ _ Hx)).
  unfold bind, liftR. by rewrite Hr.
Qed.

Lemma transposeOf_ok e x t r :
  live e x t -> Kernel.transpose t = Ok r ->
  tf.transposeOf x e = (tf.register r e, Ok (nextTensorId e)).
Proof.
  intros Hx Hr. unfold tf.transposeOf.
  rewrite (bind_ok _ _ _ _ _ (throwIfDisposed_live _ _ _ Hx)).
  by apply transpose_ok with (t := t).
Qed.

(** The four ways [box.ts] passes operands to a binary operation. *)
Lemma binaryOp_tensors f e x y tx ty r :
  live e x tx -> live e y ty -> Kernel.broadcastOp f tx ty = Ok r ->
  tf.binaryOp f (tf.ofTensor x) (tf.ofTensor y) e
  = (tf.register r e, Ok (nextTensorId e)).
Proof.
  intros Hx Hy Hr. unfold tf.binaryOp. apply op_result.
  unfold tf.convertToTensor, bind, ret, liftR.
  rewrite (kernelRead_live (tf.startScope e) _ _ Hx),
    (kernelRead_live (tf.startScope e) _ _ Hy).
  by rewrite Hr.
Qed.

Lemma binaryOp_tensor_array f e x l tx r :
  wfEngine e ->
  live e x tx -> Kernel.broadcastOp f tx (tensor1d l) = Ok r ->
  tf.binaryOp f (tf.ofTensor x) (tf.ofArray l) e
  = (tf.register r (spent (tensor1d l) e), Ok (S (nextTensorId e))).
Proof.
  intros Hwf Hx Hr. unfold tf.binaryOp. apply op_result_temp.
  unfold tf.convertToTensor, tf.makeTensor, bind, ret, liftR.
  rewrite (kernelRead_live _ x tx),
    (kernelRead_live _ _ _ (live_register_new _ _)).
  - by rewrite Hr.
  - apply live_register_old; [exact Hx|].
    apply (live_lt _ _ _ Hwf) in Hx. simpl. lia.
Qed.

Lemma binaryOp_tensor_number f e x q tx r :
  wfEngine e ->
  live e x tx -> Kernel.broadcastOp f tx (scalar q) = Ok r ->
  tf.binaryOp f (tf.ofTensor x) (tf.ofNumber q) e
  = (tf.register r (spent (scalar q) e), Ok (S (nextTensorId e))).
Proof.
  intros Hwf Hx Hr. unfold tf.binaryOp. apply op_result_temp.
  unfold tf.convertToTensor, tf.makeTensor, bind, ret, liftR.
  rewrite (kernelRead_live _ x tx),
    (kernelRead_live _ _ _ (live_register_new _ _)).
  - by rewrite Hr.
  - apply live_register_old; [exact Hx|].
    apply (live_lt _ _ _ Hwf) in Hx. simpl. lia.
Qed.

Lemma binaryOp_array_tensor f e l y ty r :
  wfEngine e ->
  live e y ty -> Kernel.broadcastOp f (tensor1d l) ty = Ok r ->
  tf.binaryOp f (tf.ofArray l) (tf.ofTensor y) e
  = (tf.register r (spent (tensor1d l) e), Ok (S (nextTensorId e))).
Proof.
  intros Hwf Hy Hr. unfold tf.binaryOp. apply op_result_temp.
  unfold tf.convertToTensor, tf.makeTensor, bind, ret, liftR.
  rewrite (kernelRead_live _ _ _ (live_register_new _ _)),
    (kernelRead_live _ y ty).
  - by rewrite Hr.
  - apply live_register_old; [exact Hy|].
    apply (live_lt _ _ _ Hwf) in Hy. simpl. lia.
Qed.

Ltac live_bounds :=
  repeat match goal with
         | Hwf : wfEngine ?e, H : live ?e ?id _ |- _ =>
             lazymatch goal with
             | _ : (id < nextTensorId e)%nat |- _ => fail
             | _ => pose proof (live_lt _ _ _ Hwf H)
             end
         end.

Ltac solve_live :=
  repeat first
    [ apply live_register_new
    | apply live_register_old; [| simpl; lia]
    | apply live_spent_old; [| simpl; lia] ];
  eassumption.

Ltac solve_wf :=
  repeat first [apply wfEngine_register | apply wfEngine_spent]; assumption.

Lemma createBox_explicit se s ep e :
  createBox se (Some s) (Some ep) e = (e, Ok (mkBox (Some s) ep se None)).
Proof. reflexivity. Qed.

Lemma createBox_derived e se n vals :
  wfEngine e ->
  live e se (mkTensor [n; 4%nat] vals) ->
  length vals = (n * 4)%nat ->
  createBox se None None e
  = (tf.register (Kernel.lastTwo n vals)
       (tf.register (Kernel.firstTwo n vals) e),
     Ok (mkBox (Some (nextTensorId e)) (S (nextTensorId e)) se None)).
Proof.
  intros Hwf Hse Hl. live_bounds. unfold createBox.
  erewrite bind_ok
    by (eapply slice_ok; [solve_live | apply Kernel_slice_firstTwo]).
  erewrite bind_ok
    by (eapply slice_ok; [solve_live | by apply Kernel_slice_lastTwo]).
  reflexivity.
Qed.

Create HintDb framed.

Lemma framed_unchanged {A} (m : TF A) :
  (forall e, fst (m e) = e) -> framed m.
Proof. intros H e Hwf. rewrite H. split; [apply grows_refl | done]. Qed.

Lemma framed_ret {A} (a : A) : framed (ret a).
Proof. by apply framed_unchanged. Qed.

Lemma framed_throw {A} err : framed (@throw A err).
Proof. by apply framed_unchanged. Qed.

Lemma framed_liftR {A} (r : Result A) : framed (liftR r).
Proof. by apply framed_unchanged. Qed.

Lemma framed_bind {A B} (m : TF A) (k : A -> TF B) :
  framed m -> (forall a, framed (k a)) -> framed (bind m k).
Proof.
  intros Hm Hk e Hwf. unfold bind.
  destruct (Hm e Hwf) as [Hg Hwf1].
  destruct (m e) as [e1 [a|err]]; simpl in *; [|done].
  destruct (Hk a e1 Hwf1) as [Hg2 Hwf2].
  split; [by eapply grows_trans | done].
Qed.

Lemma framed_makeTensor t : framed (tf.makeTensor t).
Proof.
  intros e Hwf. split; [apply grows_register | by apply wfEngine_register].
Qed.

Lemma framed_readTensor id : framed (tf.readTensor id).
Proof.
  apply framed_unchanged. intros e. unfold tf.readTensor.
  destruct (registry e !! id) as [o|]; [by destruct (isDisposed o) | done].
Qed.

Lemma framed_shapeOf id : framed (tf.shapeOf id).
Proof.
  apply framed_unchanged. intros e. unfold tf.shapeOf.
  by destruct (registry e !! id).
Qed.

Lemma framed_kernelRead id : framed (tf.kernelRead id).
Proof.
  apply framed_unchanged. intros e. unfold tf.kernelRead.
  destruct (registry e !! id) as [o|]; [by destruct (isDisposed o) | done].
Qed.

Lemma framed_throwIfDisposed id : framed (tf.throwIfDisposed id).
Proof.
  apply framed_unchanged. intros e. unfold tf.throwIfDisposed.
  destruct (registry e !! id) as [o|]; [by destruct (isDisposed o) | done].
Qed.

Lemma wfEngine_startScope e : wfEngine e -> wfEngine (tf.startScope e).
Proof. done. Qed.

Lemma framed_tidy {A} `{Container A} (fn : TF A) :
  framed fn -> framed (tf.tidy fn).
Proof.
  intros Hfn e Hwf. unfold tf.tidy, tf.closeScope.
  destruct (Hfn _ (wfEngine_startScope _ Hwf)) as [Hg Hwf'].
  destruct (fn (tf.startScope e)) as [e' [a|err]]; simpl in *;
    by apply endScope_grows.
Qed.

Lemma framed_op {A} `{Container A} (fn : TF A) :
  framed fn -> framed (tf.op fn).
Proof. apply framed_tidy. Qed.

#[local] Hint Resolve framed_ret framed_throw framed_liftR framed_bind
  framed_makeTensor framed_readTensor framed_shapeOf framed_kernelRead
  framed_throwIfDisposed framed_tidy framed_op : framed.

Lemma framed_readAll xs : framed (tf.readAll xs).
Proof. induction xs; simpl; auto with framed. Qed.

Lemma framed_convertToTensor x : framed (tf.convertToTensor x).
Proof. destruct x; simpl; auto with framed. Qed.

#[local] Hint Resolve framed_readAll framed_convertToTensor : framed.

Lemma framed_binaryOp f a b : framed (tf.binaryOp f a b).
Proof. unfold tf.binaryOp. auto 10 with framed. Qed.

Lemma framed_slice x begin size : framed (tf.slice x begin size).
Proof. unfold tf.slice. auto with framed. Qed.

Lemma framed_concat2d xs axis : framed (tf.concat2d xs axis).
Proof. unfold tf.concat2d. auto with framed. Qed.

Lemma framed_transpose x : framed (tf.transpose x).
Proof. unfold tf.transpose. auto with framed. Qed.

#[local] Hint Resolve framed_slice framed_transpose : framed.

Lemma framed_sliceOf x begin size : framed (tf.sliceOf x begin size).
Proof. unfold tf.sliceOf. auto with framed. Qed.

Lemma framed_transposeOf x : framed (tf.transposeOf x).
Proof. unfold tf.transposeOf. auto with framed. Qed.

Lemma framed_tensor2d vals shp : framed (tf.tensor2d vals shp).
Proof. unfold tf.tensor2d. case_match; auto with framed. Qed.

Lemma framed_dataSync x : framed (tf.dataSync x).
Proof. unfold tf.dataSync. auto with framed. Qed.

#[local] Hint Resolve framed_binaryOp framed_concat2d framed_sliceOf
  framed_transposeOf framed_tensor2d framed_dataSync : framed.

Lemma framed_createBox se s ep : framed (createBox se s ep).
Proof. unfold createBox. destruct s, ep; auto 10 with framed. Qed.

#[local] Hint Resolve framed_createBox : framed.

Lemma framed_scaleBoxCoordinates box factor :
  framed (scaleBoxCoordinates box factor).
Proof. unfold scaleBoxCoordinates, tf.mul. auto 10 with framed. Qed.

Lemma framed_asPair l : framed (asPair l).
Proof. unfold asPair. repeat case_match; auto with framed. Qed.

#[local] Hint Resolve framed_asPair : framed.

Lemma framed_toCpuBox box : framed (toCpuBox box).
Proof. unfold toCpuBox. destruct (startPoint box); auto 10 with framed. Qed.

#[local] Hint Resolve framed_toCpuBox : framed.

Lemma framed_enlargeBox box factor : framed (enlargeBox box factor).
Proof.
  unfold enlargeBox, tf.mul, tf.div, tf.sub, tf.add.
  apply framed_tidy. auto 20 with framed.
Qed.

Lemma framed_cropAndResize `{Resampler} img boxes boxInd cropSize :
  framed (image.cropAndResize img boxes boxInd cropSize).
Proof.
  unfold image.cropAndResize. apply framed_op.
  repeat (apply framed_bind; [auto with framed | intros]).
  repeat case_match; auto 10 with framed.
Qed.

Lemma framed_normalizedCoords xyxy h w : framed (normalizedCoords xyxy h w).
Proof.
  unfold normalizedCoords, tf.div.
  repeat (apply framed_bind; [auto with framed | intros]).
  repeat case_match; auto with framed.
Qed.

Lemma framed_cutBoxFromImageAndResize `{Resampler} box img cropSize :
  framed (cutBoxFromImageAndResize box img cropSize).
Proof.
  unfold cutBoxFromImageAndResize.
  apply framed_bind; [auto with framed | intros].
  apply framed_tidy, framed_bind;
    [apply framed_normalizedCoords | intros; apply framed_cropAndResize].
Qed.

Lemma framed_run {A} (m : TF A) e e' r :
  framed m -> wfEngine e -> m e = (e', r) -> grows e e' /\ wfEngine e'.
Proof. intros Hm Hwf Hrun. specialize (Hm e Hwf). by rewrite Hrun in Hm. Qed.

Lemma framed_bind_inv {A B} (m : TF A) (k : A -> TF B) e e' b :
  framed m -> wfEngine e -> bind m k e = (e', Ok b) ->
  exists a e1,
    m e = (e1, Ok a) /\ k a e1 = (e', Ok b) /\ grows e e1 /\ wfEngine e1.
Proof.
  intros Hm Hwf H. apply bind_inv in H as (a & e1 & H1 & H2).
  destruct (framed_run _ _ _ _ Hm Hwf H1). eauto 10.
Qed.

Lemma grows_preserved e e' : wfEngine e -> grows e e' -> preserved e e'.
Proof.
  intros Hwf (_ & Hr & _) id o H. rewrite Hr; [done|]. by apply (Hwf _ _ H).
Qed.

Lemma wfEngine_fresh e id :
  wfEngine e -> (nextTensorId e <= id)%nat -> registry e !! id = None.
Proof.
  intros Hwf Hid. destruct (registry e !! id) eqn:E; [|done].
  apply Hwf in E. lia.
Qed.

Lemma tidy_inv {A} `{Container A} (fn : TF A) e e' a :
  tf.tidy fn e = (e', Ok a) ->
  exists e1, fn (tf.startScope e) = (e1, Ok a)
             /\ e' = tf.endScope (tensorsIn a) e1.
Proof.
  unfold tf.tidy, tf.closeScope.
  destruct (fn (tf.startScope e)) as [e1 [a1|err]]; intros Hrun;
    [|discriminate].
  injection Hrun as <- <-. eauto.
Qed.

Lemma tidy_ok {A} `{Container A} (fn : TF A) e e1 a :
  fn (tf.startScope e) = (e1, Ok a) ->
  tf.tidy fn e = (tf.endScope (tensorsIn a) e1, Ok a).
Proof. intros Hrun. unfold tf.tidy, tf.closeScope. by rewrite Hrun. Qed.

(** ** Results that are new tensors *)

Lemma makesTensor_makeTensor t : makesTensor (tf.makeTensor t).
Proof.
  intros e e' id Hwf H. unfold tf.makeTensor in H.
  injection H as <- <-. split; [simpl; lia|].
  exists t. apply live_register_new.
Qed.

Lemma makesTensor_bind {A} (m : TF A) (k : A -> TF nat) :
  framed m -> (forall a, makesTensor (k a)) -> makesTensor (bind m k).
Proof.
  intros Hm Hk e e' id Hwf H.
  apply framed_bind_inv in H as (a & e1 & _ & H2 & Hg & Hwf1); [|done..].
  destruct (Hk a e1 e' id Hwf1 H2) as [Hid Hl].
  destruct Hg as (Hn & _). split; [lia | done].
Qed.

Lemma makesTensor_throw err : makesTensor (throw err).
Proof. intros e e' id _ H. discriminate. Qed.

Lemma makesTensor_op (fn : TF nat) :
  framed fn -> makesTensor fn -> makesTensor (tf.op fn).
Proof.
  intros Hf Hmk e e' id Hwf Hrun.
  apply tidy_inv in Hrun as (e1 & Hrun & ->).
  destruct (framed_run _ _ _ _ Hf (wfEngine_startScope _ Hwf) Hrun)
    as [Hg _].
  destruct (Hmk _ _ _ (wfEngine_startScope _ Hwf) Hrun) as [Hid [t Hl]].
  destruct (grows_startScope _ _ Hg) as (added & Hs & _).
  split.
  - unfold tf.endScope. rewrite Hs. exact Hid.
  - exists t. eapply live_endScope; [exact Hs | exact Hl |].
    left. apply elem_of_cons. by left.
Qed.

#[local] Hint Resolve makesTensor_makeTensor makesTensor_bind
  makesTensor_throw makesTensor_op : framed.

Lemma makesTensor_binaryOp f a b : makesTensor (tf.binaryOp f a b).
Proof. unfold tf.binaryOp. auto 10 with framed. Qed.

Lemma makesTensor_slice x begin size : makesTensor (tf.slice x begin size).
Proof. unfold tf.slice. auto with framed. Qed.

Lemma makesTensor_concat2d xs axis : makesTensor (tf.concat2d xs axis).
Proof. unfold tf.concat2d. auto with framed. Qed.

Lemma scaleBoxCoordinates_fresh e box factor :
  wfEngine e -> returnsFreshBox e (scaleBoxCoordinates box factor e).
Proof.
  intros Hwf. unfold returnsFreshBox.
  destruct (scaleBoxCoordinates box factor e) as [e' [b'|err]] eqn:Hrun;
    simpl; [|done].
  unfold scaleBoxCoordinates, tf.mul in Hrun.
  apply framed_bind_inv in Hrun as (ns & e1 & _ & Hrun & Hg1 & Hwf1);
    [|auto with framed..].
  apply framed_bind_inv in Hrun as (ne & e2 & _ & Hrun & Hg2 & Hwf2);
    [|auto with framed..].
  apply framed_bind_inv in Hrun as (c & e3 & Hc & Hrun & Hg3 & Hwf3);
    [|auto with framed..].
  unfold createBox in Hrun.
  apply framed_bind_inv in Hrun as (s & e4 & Hs & Hrun & Hg4 & Hwf4);
    [|auto with framed..].
  apply framed_bind_inv in Hrun as (ep & e5 & Hep & Hrun & Hg5 & Hwf5);
    [|auto with framed..].
  injection Hrun as <- <-.
  destruct (makesTensor_concat2d _ _ _ _ _ Hwf2 Hc) as [Hcid [tc Hcl]].
  destruct (makesTensor_slice _ _ _ _ _ _ Hwf3 Hs) as [Hsid [ts Hsl]].
  destruct (makesTensor_slice _ _ _ _ _ _ Hwf4 Hep) as [Hepid [tep Hepl]].
  pose proof (proj1 Hg1). pose proof (proj1 Hg2). pose proof (proj1 Hg3).
  pose proof (proj1 Hg4). pose proof (proj1 Hg5).
  exists s. simpl. split; [done|]. split.
  { repeat constructor; rewrite ?elem_of_cons, ?elem_of_nil; lia. }
  split; [|done].
  repeat constructor.
  - apply wfEngine_fresh; [done | lia].
  - exists ts. eapply grows_live; [exact Hg5 | lia | done].
  - apply wfEngine_fresh; [done | lia].
  - by exists tep.
  - apply wfEngine_fresh; [done | lia].
  - exists tc. eapply grows_live; [exact (grows_trans _ _ _ Hg4 Hg5) | lia | done].
Qed.

Lemma enlargeBox_fresh e box factor :
  wfEngine e -> returnsFreshBox e (enlargeBox box factor e).
Proof.
  intros Hwf. unfold returnsFreshBox.
  destruct (enlargeBox box factor e) as [e' [b'|err]] eqn:Hrun;
    simpl; [|done].
  unfold enlargeBox, tf.mul, tf.div, tf.sub, tf.add in Hrun.
  apply tidy_inv in Hrun as (ei & Hrun & ->).
  assert (Hinner : grows (tf.startScope e) ei /\ wfEngine ei).
  { eapply framed_run; [|by apply wfEngine_startScope|exact Hrun].
    auto 20 with framed. }
  destruct Hinner as [Hgi Hwfi].
  destruct (grows_startScope _ _ Hgi) as (added & Hstack & _).
  pose proof (wfEngine_startScope _ Hwf) as Hwf0.
  apply framed_bind_inv in Hrun as (cpu & e1 & _ & Hrun & Hg1 & Hwf1);
    [|auto with framed..].
  apply framed_bind_inv in Hrun as (? & e2 & _ & Hrun & Hg2 & Hwf2);
    [|auto with framed..].
  apply framed_bind_inv in Hrun as (? & e7 & _ & Hrun & Hg7 & Hwf7);
    [|auto 10 with framed..].
  apply framed_bind_inv in Hrun as (ns & e8 & Hns & Hrun & Hg8 & Hwf8);
    [|auto with framed..].
  apply framed_bind_inv in Hrun as (ne & e9 & Hne & Hrun & Hg9 & Hwf9);
    [|auto with framed..].
  apply framed_bind_inv in Hrun as (c & e10 & Hc & Hrun & Hg10 & Hwf10);
    [|auto with framed..].
  rewrite createBox_explicit in Hrun. injection Hrun as <- <-.
  destruct (makesTensor_binaryOp _ _ _ _ _ _ Hwf7 Hns) as [Hnsid [tns Hnsl]].
  destruct (makesTensor_binaryOp _ _ _ _ _ _ Hwf8 Hne) as [Hneid [tne Hnel]].
  destruct (makesTensor_concat2d _ _ _ _ _ Hwf9 Hc) as [Hcid [tc Hcl]].
  pose proof (proj1 Hg1). pose proof (proj1 Hg2). pose proof (proj1 Hg7).
  pose proof (proj1 Hg8). pose proof (proj1 Hg9). pose proof (proj1 Hg10).
  simpl nextTensorId in *.
  exists ns. simpl. split; [done|]. split.
  { repeat constructor; rewrite ?elem_of_cons, ?elem_of_nil; lia. }
  split; [|done].
  unfold tensorsIn, container_box; simpl.
  repeat constructor.
  - apply wfEngine_fresh; [done | lia].
  - exists tns. eapply live_endScope; [exact Hstack| |left; rewrite !elem_of_cons; auto].
    eapply grows_live; [exact (grows_trans _ _ _ Hg9 Hg10) | lia | done].
  - apply wfEngine_fresh; [done | lia].
  - exists tne. eapply live_endScope; [exact Hstack| |left; rewrite !elem_of_cons; auto].
    eapply grows_live; [exact Hg10 | lia | done].
  - apply wfEngine_fresh; [done | lia].
  - exists tc. eapply live_endScope; [exact Hstack|done|left; rewrite !elem_of_cons; auto].
Qed.

Lemma broadcastOp_row_vec f a0 a1 b0 b1 :
  Kernel.broadcastOp f (mkTensor [1; 2]%nat [a0; a1]) (tensor1d [b0; b1])
  = Ok (mkTensor [1; 2]%nat [f a0 b0; f a1 b1]).
Proof. reflexivity. Qed.

Lemma broadcastOp_vec_row f a0 a1 b0 b1 :
  Kernel.broadcastOp f (tensor1d [a0; a1]) (mkTensor [1; 2]%nat [b0; b1])
  = Ok (mkTensor [1; 2]%nat [f a0 b0; f a1 b1]).
Proof. reflexivity. Qed.

Lemma broadcastOp_row_scalar f a0 a1 q :
  Kernel.broadcastOp f (mkTensor [1; 2]%nat [a0; a1]) (scalar q)
  = Ok (mkTensor [1; 2]%nat [f a0 q; f a1 q]).
Proof. reflexivity. Qed.

Lemma broadcastOp_row4_vec4 f a0 a1 a2 a3 b0 b1 b2 b3 :
  Kernel.broadcastOp f (mkTensor [1; 4]%nat [a0; a1; a2; a3])
                     (tensor1d [b0; b1; b2; b3])
  = Ok (mkTensor [1; 4]%nat [f a0 b0; f a1 b1; f a2 b2; f a3 b3]).
Proof. reflexivity. Qed.

Lemma toCpuBox_ok e box s ts te a b ra c d rb :
  startPoint box = Some s ->
  live e s ts -> values ts = a :: b :: ra ->
  live e (endPoint box) te -> values te = c :: d :: rb ->
  toCpuBox box e = (e, Ok (mkCpuBox (a, b) (c, d) None)).
Proof.
  intros Hs Hls Hvs Hle Hve. unfold toCpuBox, tf.dataSync. rewrite Hs.
  unfold bind. rewrite (readTensor_live _ _ _ Hls); simpl.
  rewrite (readTensor_live _ _ _ Hle); simpl.
  by rewrite Hvs, Hve.
Qed.

Lemma tensor2d_pair e a b :
  tf.tensor2d [a; b] (1, 2)%nat e
  = (tf.register (mkTensor [1; 2]%nat [a; b]) e, Ok (nextTensorId e)).
Proof. reflexivity. Qed.

(** The run of [enlargeBox], step by step. *)
Lemma enlargeBox_run e box s ts te a b ra c d rb factor :
  wfEngine e ->
  startPoint box = Some s ->
  live e s ts -> values ts = a :: b :: ra ->
  live e (endPoint box) te -> values te = c :: d :: rb ->
  let cpu := mkCpuBox (a, b) (c, d) None in
  let center := getBoxCenter cpu in
  let size := getBoxSize cpu in
  let newStart := (fst center - fst size / 2 * factor,
                   snd center - snd size / 2 * factor) in
  let newEnd := (fst center + fst size / 2 * factor,
                 snd center + snd size / 2 * factor) in
  exists e' s' ep' se',
    enlargeBox box factor e = (e', Ok (mkBox (Some s') ep' se' None))
    /\ live e' s' (mkTensor [1; 2]%nat [fst newStart; snd newStart])
    /\ live e' ep' (mkTensor [1; 2]%nat [fst newEnd; snd newEnd])
    /\ live e' se' (mkTensor [1; 4]%nat
                      [fst newStart; snd newStart; fst newEnd; snd newEnd]).
Proof.
  intros Hwf Hs Hls Hvs Hle Hve cpu center size newStart newEnd.
  live_bounds.
  pose proof (wfEngine_startScope _ Hwf) as Hwf0.
  assert (Hls0 : live (tf.startScope e) s ts) by exact Hls.
  assert (Hle0 : live (tf.startScope e) (endPoint box) te) by exact Hle.
  set (e0 := tf.startScope e) in *.
  assert (Hn0 : nextTensorId e0 = nextTensorId e) by reflexivity.
  unfold enlargeBox.
  do 4 eexists. split; [|split; [|split]].
  - apply tidy_ok. fold e0.
    erewrite bind_ok by (by eapply toCpuBox_ok).
    fold cpu. cbv zeta. fold center size.
    rewrite (bind_ok _ _ _ _ _ (tensor2d_pair _ _ _)).
    unfold tf.mul, tf.div, tf.sub, tf.add.
    erewrite bind_ok.
    2:{ erewrite bind_ok
          by (eapply binaryOp_tensor_number;
              [solve_wf | solve_live | apply broadcastOp_row_scalar]).
        eapply binaryOp_tensor_number;
          [solve_wf | solve_live | apply broadcastOp_row_scalar]. }
    erewrite bind_ok
      by (eapply binaryOp_array_tensor;
          [solve_wf | solve_live | apply broadcastOp_vec_row]).
    erewrite bind_ok
      by (eapply binaryOp_array_tensor;
          [solve_wf | solve_live | apply broadcastOp_vec_row]).
    erewrite bind_ok
      by (eapply concat2d_ok; [repeat constructor; solve_live | reflexivity]).
    rewrite createBox_explicit. reflexivity.
  - eapply live_endScope; [reflexivity | solve_live |].
    left. unfold tensorsIn, container_box; simpl. rewrite !elem_of_cons; auto.
  - eapply live_endScope; [reflexivity | solve_live |].
    left. unfold tensorsIn, container_box; simpl. rewrite !elem_of_cons; auto.
  - eapply live_endScope; [reflexivity | solve_live |].
    left. unfold tensorsIn, container_box; simpl. rewrite !elem_of_cons; auto.
Qed.





(** With factor 2 the box [[10,20]]-[[30,50]] becomes [[0,5]]-[[40,65]]. *)
Example enlargeBox_example :
  exists e' box' cpu',
    enlargeBox exampleBox 2 exampleEngine = (e', Ok box')
    /\ toCpuBox box' e' = (e', Ok cpu')
    /\ Qeq2 (cpuStartPoint cpu') (0, 5)
    /\ Qeq2 (cpuEndPoint cpu') (40, 65)
    /\ Qeq2 (getBoxSize cpu') (40, 60)
    /\ Qeq2 (getBoxCenter cpu') (20, 35).
Proof.
  eexists _, _, _. split; [vm_compute; reflexivity|].
  split; [vm_compute; reflexivity|].
  repeat split; reflexivity.
Qed.


(** ** Size and center *)

Lemma Qabs_cases x : 0 <= Qabs x /\ (Qabs x == x \/ Qabs x == - x).
Proof.
  split; [apply Qabs_nonneg|].
  destruct (Qlt_le_dec x 0) as [Hneg|Hpos].
  - right. apply Qabs_neg. by apply Qlt_le_weak.
  - left. by apply Qabs_pos.
Qed.

(** C7. [getBoxSize] returns, per axis, the absolute difference of the
    end and the start: a number that is not negative and is the
    difference or its opposite.  For start [[10,20]] and end [[30,50]]
    it returns [[20,30]]. *)
Theorem getBoxSize_absolute_difference box :
  let dx := fst (cpuEndPoint box) - fst (cpuStartPoint box) in
  let dy := snd (cpuEndPoint box) - snd (cpuStartPoint box) in
  (0 <= fst (getBoxSize box)
   /\ (fst (getBoxSize box) == dx \/ fst (getBoxSize box) == - dx))
  /\ (0 <= snd (getBoxSize box)
      /\ (snd (getBoxSize box) == dy \/ snd (getBoxSize box) == - dy))
  /\ getBoxSize (mkCpuBox (10, 20) (30, 50) None) = (20, 30).
Proof.
  intros dx dy. unfold getBoxSize; cbn [fst snd].
  split; [apply Qabs_cases|]. split; [apply Qabs_cases|]. reflexivity.
Qed.

Example getBoxCenter_example :
  Qeq2 (getBoxCenter (mkCpuBox (10, 20) (30, 50) None)) (20, 35).
Proof. split; reflexivity. Qed.

(** ** Disposal *)

Lemma disposeBox_present e s ep se lm :
  disposeBox (Some (mkBox (Some s) ep se lm)) e
  = (foldr tf.disposeTensor e [ep; s; se], Ok tt).
Proof. reflexivity. Qed.

Lemma decide_elem_perm3 {A} (id a b c : nat) (x y : A) :
  (if decide (id ∈ [c; b; a]) then x else y)
  = (if decide (id ∈ [a; b; c]) then x else y).
Proof.
  destruct (decide (id ∈ [c; b; a])) as [H1|H1],
           (decide (id ∈ [a; b; c])) as [H2|H2]; try done;
    exfalso; rewrite !elem_of_cons, elem_of_nil in *; tauto.
Qed.

(** C8. [disposeBox] is a no-op that does not fail when the box or its
    [startPoint] is absent; otherwise it disposes the box's
    [startEndTensor], [startPoint] and [endPoint], and nothing else. *)
Theorem disposeBox_guarded e :
  disposeBox None e = (e, Ok tt)
  /\ (forall ep se lm, disposeBox (Some (mkBox None ep se lm)) e = (e, Ok tt))
  /\ (forall s ep se lm,
        exists e',
          disposeBox (Some (mkBox (Some s) ep se lm)) e = (e', Ok tt)
          /\ nextTensorId e' = nextTensorId e
          /\ scopeStack e' = scopeStack e
          /\ forall id,
               registry e' !! id
               = if decide (id ∈ [se; s; ep])
                 then disposed <$> registry e !! id
                 else registry e !! id).
Proof.
  split; [reflexivity|]. split; [reflexivity|].
  intros s ep se lm. eexists. split; [apply disposeBox_present|].
  split; [apply nextTensorId_disposeAll|].
  split; [apply scopeStack_disposeAll|].
  intros id. rewrite registry_disposeAll. apply decide_elem_perm3.
Qed.

Example disposeBox_example :
  exists e',
    disposeBox (Some exampleBox) exampleEngine = (e', Ok tt)
    /\ isDisposed <$> registry e' !! 0%nat = Some true
    /\ isDisposed <$> registry e' !! 1%nat = Some true
    /\ isDisposed <$> registry e' !! 2%nat = Some true.
Proof. eexists. repeat split. Qed.

(** ** The factory *)

Lemma createBox_as_is e e' se s ep b :
  createBox se s ep e = (e', Ok b) ->
  startEndTensor b = se
  /\ landmarks b = None
  /\ from_option (fun s0 => startPoint b = Some s0) True s
  /\ from_option (fun ep0 => endPoint b = ep0) True ep.
Proof.
  unfold createBox. intros Hrun.
  apply bind_inv in Hrun as (s' & e1 & H1 & Hrun).
  apply bind_inv in Hrun as (ep' & e2 & H2 & Hrun).
  injection Hrun as <- <-. simpl.
  split; [done|]. split; [done|]. split.
  - destruct s as [s0|]; simpl; [|done]. by injection H1 as <- <-.
  - destruct ep as [ep0|]; simpl; [|done]. by injection H2 as <- <-.
Qed.

(** C6. Start and end points that are supplied are used as they are,
    with no new tensor when both are.  From a combined buffer alone, [createBox] makes
    [startPoint] from columns 0-1 and [endPoint] from columns 2-3 of the
    buffer; for one row [[x0,y0,x1,y1]] these are [[x0,y0]] and
    [[x1,y1]], and from [[0,0,10,10]] they are [[0,0]] and [[10,10]]. *)
Theorem createBox_fields :
  (forall e se s ep,
      createBox se (Some s) (Some ep) e = (e, Ok (mkBox (Some s) ep se None)))
  /\ (forall e e' se s ep b,
        createBox se s ep e = (e', Ok b) ->
        startEndTensor b = se
        /\ landmarks b = None
        /\ from_option (fun s0 => startPoint b = Some s0) True s
        /\ from_option (fun ep0 => endPoint b = ep0) True ep)
  /\ (forall e se n vals,
        wfEngine e ->
        live e se (mkTensor [n; 4%nat] vals) ->
        length vals = (n * 4)%nat ->
        exists e' s ep,
          createBox se None None e = (e', Ok (mkBox (Some s) ep se None))
          /\ Kernel.slice (mkTensor [n; 4%nat] vals) (0, 0)%nat (-1, 2)%Z
             = Ok (Kernel.firstTwo n vals)
          /\ Kernel.slice (mkTensor [n; 4%nat] vals) (0, 2)%nat (-1, 2)%Z
             = Ok (Kernel.lastTwo n vals)
          /\ live e' s (Kernel.firstTwo n vals)
          /\ live e' ep (Kernel.lastTwo n vals)
          /\ live e' se (mkTensor [n; 4%nat] vals))
  /\ (forall x0 y0 x1 y1,
        Kernel.firstTwo 1 [x0; y0; x1; y1] = mkTensor [1; 2]%nat [x0; y0]
        /\ Kernel.lastTwo 1 [x0; y0; x1; y1] = mkTensor [1; 2]%nat [x1; y1])
  /\ (exists e' s ep,
        createBox 0%nat None None bufferEngine
        = (e', Ok (mkBox (Some s) ep 0%nat None))
        /\ live e' s (mkTensor [1; 2]%nat [0; 0])
        /\ live e' ep (mkTensor [1; 2]%nat [10; 10])).
Proof.
  split; [intros; apply createBox_explicit|].
  split; [apply createBox_as_is|]. split.
  - intros e se n vals Hwf Hse Hl. live_bounds.
    eexists _, _, _. split; [by apply createBox_derived|].
    split; [apply Kernel_slice_firstTwo|].
    split; [by apply Kernel_slice_lastTwo|].
    repeat split; solve_live.
  - split; [intros; split; reflexivity|].
    eexists _, _, _. split; [reflexivity|]. split; reflexivity.
Qed.

Lemma createBox_fields_witness :
  exists e' s ep,
    createBox 2%nat None None exampleEngine
    = (e', Ok (mkBox (Some s) ep 2%nat None))
    /\ live e' s (mkTensor [1; 2]%nat [10; 20])
    /\ live e' ep (mkTensor [1; 2]%nat [30; 50]).
Proof.
  destruct (proj1 (proj2 (proj2 createBox_fields)) exampleEngine 2%nat 1%nat
              [10; 20; 30; 50])
    as (e' & s & ep & Hrun & _ & _ & Hs & Hep & _).
  - apply (bool_decide_unpack _). vm_compute. exact I.
  - reflexivity.
  - reflexivity.
  - exists e', s, ep. split; [exact Hrun|]. split; [exact Hs | exact Hep].
Defined.

(** X18. The box that [createBox] derives from a buffer of four columns,
    with any number of rows, is consistent. *)
Lemma createBox_consistent e e' se n vals b :
  wfEngine e ->
  live e se (mkTensor [n; 4%nat] vals) ->
  length vals = (n * 4)%nat ->
  createBox se None None e = (e', Ok b) ->
  consistent e' b.
Proof.
  intros Hwf Hse Hl Hrun. live_bounds.
  rewrite (createBox_derived _ _ _ _ Hwf Hse Hl) in Hrun.
  injection Hrun as <- <-.
  exists (nextTensorId e), n, vals. simpl.
  split; [done|]. split; [done|]. repeat split; solve_live.
Qed.

(** C4. In a box whose three fields are consistent, as in every box that
    [createBox] derives from a combined buffer, the concatenation of
    [startPoint] and [endPoint] along axis 1 is a tensor with exactly the
    shape and the data of [startEndTensor]. *)
Theorem concat_of_points_is_startEndTensor e box :
  consistent e box ->
  exists s t e' c,
    startPoint box = Some s
    /\ live e (startEndTensor box) t
    /\ tf.concat2d [s; endPoint box] 1 e = (e', Ok c)
    /\ live e' c t.
Proof.
  intros (s & n & vals & Hs & Hl & Hse & Hsp & Hep).
  exists s, (mkTensor [n; 4%nat] vals). eexists _, _.
  split; [done|]. split; [done|]. split.
  - eapply concat2d_ok; [repeat constructor; eassumption|].
    by apply Kernel_concat2d_halves.
  - apply live_register_new.
Qed.

Lemma concat_of_points_is_startEndTensor_witness :
  exists s t e' c,
    startPoint exampleBox = Some s
    /\ live exampleEngine (startEndTensor exampleBox) t
    /\ tf.concat2d [s; endPoint exampleBox] 1 exampleEngine = (e', Ok c)
    /\ live e' c t.
Proof.
  apply (concat_of_points_is_startEndTensor exampleEngine exampleBox).
  exists 0%nat, 1%nat, [10; 20; 30; 50].
  repeat split; reflexivity.
Defined.

(** ** Scaling *)

(** C5. [scaleBoxCoordinates] multiplies the start and the end point by
    the factor, per axis; it concatenates the two products and calls
    [createBox] on the result with no explicit points, so the points of
    the new box are derived from the combined buffer. *)
Theorem scaleBoxCoordinates_scales e box factor s a b c d fx fy :
  wfEngine e ->
  startPoint box = Some s ->
  live e s (mkTensor [1; 2]%nat [a; b]) ->
  live e (endPoint box) (mkTensor [1; 2]%nat [c; d]) ->
  factorIs e factor fx fy ->
  exists e1 e' s' ep' se',
    scaleBoxCoordinates box factor e = createBox se' None None e1
    /\ live e1 se' (mkTensor [1; 4]%nat [a * fx; b * fy; c * fx; d * fy])
    /\ createBox se' None None e1 = (e', Ok (mkBox (Some s') ep' se' None))
    /\ live e' s' (mkTensor [1; 2]%nat [a * fx; b * fy])
    /\ live e' ep' (mkTensor [1; 2]%nat [c * fx; d * fy])
    /\ live e' se' (mkTensor [1; 4]%nat [a * fx; b * fy; c * fx; d * fy]).
Proof.
  intros Hwf Hs Hsp Hep Hf. live_bounds.
  unfold scaleBoxCoordinates, tf.mul. rewrite Hs; simpl operand.
  destruct factor as [fid | x y]; simpl in Hf; simpl factorOperand.
  - live_bounds.
    erewrite bind_ok
      by (eapply binaryOp_tensors;
          [solve_live | solve_live | apply broadcastOp_row_vec]).
    erewrite bind_ok
      by (eapply binaryOp_tensors;
          [solve_live | solve_live | apply broadcastOp_row_vec]).
    erewrite bind_ok
      by (eapply concat2d_ok; [repeat constructor; solve_live | reflexivity]).
    do 5 eexists. split; [reflexivity|]. split; [solve_live|].
    split.
    { eapply (createBox_derived _ _ 1%nat);
        [solve_wf | solve_live | reflexivity]. }
    repeat split; solve_live.
  - destruct Hf as [-> ->].
    erewrite bind_ok
      by (eapply binaryOp_tensor_array;
          [solve_wf | solve_live | apply broadcastOp_row_vec]).
    erewrite bind_ok
      by (eapply binaryOp_tensor_array;
          [solve_wf | solve_live | apply broadcastOp_row_vec]).
    erewrite bind_ok
      by (eapply concat2d_ok; [repeat constructor; solve_live | reflexivity]).
    do 5 eexists. split; [reflexivity|]. split; [solve_live|].
    split.
    { eapply (createBox_derived _ _ 1%nat);
        [solve_wf | solve_live | reflexivity]. }
    repeat split; solve_live.
Qed.


(** Factor [[2,2]] on start [[1,2]], end [[3,4]] gives start [[2,4]],
    end [[6,8]]. *)
Lemma scaleBoxCoordinates_scales_witness :
  exists e1 e' s' ep' se',
    scaleBoxCoordinates exampleBox (factorPair 2 2) smallEngine
    = createBox se' None None e1
    /\ live e1 se' (mkTensor [1; 4]%nat [2; 4; 6; 8])
    /\ createBox se' None None e1 = (e', Ok (mkBox (Some s') ep' se' None))
    /\ live e' s' (mkTensor [1; 2]%nat [2; 4])
    /\ live e' ep' (mkTensor [1; 2]%nat [6; 8])
    /\ live e' se' (mkTensor [1; 4]%nat [2; 4; 6; 8]).
Proof.
  apply (scaleBoxCoordinates_scales smallEngine exampleBox (factorPair 2 2)
           0%nat 1 2 3 4 2 2).
  - apply (bool_decide_unpack _). vm_compute. exact I.
  - reflexivity.
  - reflexivity.
  - reflexivity.
  - split; reflexivity.
Defined.

Example scaleBoxCoordinates_tensor_factor :
  let e := fst (tf.makeTensor (tensor1d [2; 2]) smallEngine) in
  exists e' s' ep' se',
    scaleBoxCoordinates exampleBox (factorTensor 3) e
    = (e', Ok (mkBox (Some s') ep' se' None))
    /\ live e' s' (mkTensor [1; 2]%nat [2; 4])
    /\ live e' ep' (mkTensor [1; 2]%nat [6; 8]).
Proof. eexists _, _, _, _. split; [vm_compute; reflexivity|]. by split. Qed.

(** ** Cropping *)

Lemma normalizedCoords_run e xyxy x0 y0 x1 y1 h w :
  wfEngine e ->
  live e xyxy (mkTensor [1; 4]%nat [x0; y0; x1; y1]) ->
  exists e1 coords,
    normalizedCoords xyxy (Some h) (Some w) e = (e1, Ok coords)
    /\ live e1 coords
         (mkTensor [1; 4]%nat
            [y0 / ofNat h; x0 / ofNat w; y1 / ofNat h; x1 / ofNat w])
    /\ grows e e1 /\ wfEngine e1.
Proof.
  intros Hwf Hx. live_bounds.
  assert (Hrun : exists e1 coords,
             normalizedCoords xyxy (Some h) (Some w) e = (e1, Ok coords)
             /\ live e1 coords
                  (mkTensor [1; 4]%nat
                     [y0 / ofNat h; x0 / ofNat w; y1 / ofNat h; x1 / ofNat w])).
  { unfold normalizedCoords, tf.div.
    do 4 (erewrite bind_ok
            by (eapply sliceOf_ok; [solve_live | lazy; reflexivity])).
    erewrite bind_ok
      by (eapply concat2d_ok;
          [repeat constructor; solve_live | lazy; reflexivity]).
    erewrite bind_ok
      by (eapply transposeOf_ok; [solve_live | lazy; reflexivity]).
    erewrite binaryOp_tensor_array;
      [| solve_wf | solve_live | apply broadcastOp_row4_vec4].
    eexists _, _. split; [reflexivity | solve_live]. }
  destruct Hrun as (e1 & coords & Hrun & Hlive).
  exists e1, coords. split; [done|]. split; [done|].
  eapply framed_run; [apply framed_normalizedCoords | done | exact Hrun].
Qed.

Lemma normalized_in01 q n :
  (0 < n)%nat -> in01 (q / ofNat n) <-> 0 <= q /\ q <= ofNat n.
Proof.
  intros Hn. unfold in01.
  assert (Hpos : 0 < ofNat n).
  { unfold ofNat. change 0 with (inject_Z 0). rewrite <- Zlt_Qlt. lia. }
  assert (Hq : q == q / ofNat n * ofNat n).
  { field. intros H0. rewrite H0 in Hpos. by apply Qlt_irrefl in Hpos. }
  set (x := q / ofNat n) in *. set (N := ofNat n) in *.
  split; intros [H0 H1]; split.
  - rewrite Hq. apply Qmult_le_0_compat; [done | by apply Qlt_le_weak].
  - rewrite Hq. rewrite <- (Qmult_1_l N) at 2.
    apply Qmult_le_compat_r; [done | by apply Qlt_le_weak].
  - apply (Qmult_le_r _ _ N Hpos). by rewrite Qmult_0_l, <- Hq.
  - apply (Qmult_le_r _ _ N Hpos). by rewrite Qmult_1_l, <- Hq.
Qed.

Lemma cutBox_unfold `{Resampler} e box image timg cropSize e1 coords :
  live e image timg ->
  normalizedCoords (startEndTensor box)
    (shape timg !! 1%nat) (shape timg !! 2%nat) (tf.startScope e)
  = (e1, Ok coords) ->
  cutBoxFromImageAndResize box image cropSize e
  = tf.closeScope (image.cropAndResize image coords [0%nat] cropSize e1).
Proof.
  intros Himg Hnc. unfold cutBoxFromImageAndResize.
  rewrite (bind_ok _ _ _ _ _ (shapeOf_live _ _ _ Himg)).
  unfold tf.tidy. by rewrite (bind_ok _ _ _ _ _ Hnc).
Qed.

(** C2 (as amended). For a box whose [startEndTensor] is the row
    [[x0,y0,x1,y1]] and an image of shape [[1,height,width,channels]],
    the resampling primitive receives
    [[y0/height, x0/width, y1/height, x1/width]]; for a positive height
    and width, these four numbers lie in [[0,1]] exactly when the box
    lies inside the image. *)
Theorem cutBox_normalized_coords `{Resampler}
    e box image timg cropSize height width channels x0 y0 x1 y1 :
  wfEngine e ->
  live e (startEndTensor box) (mkTensor [1; 4]%nat [x0; y0; x1; y1]) ->
  live e image timg ->
  shape timg = [1%nat; height; width; channels] ->
  handsOver e box image cropSize
    (mkTensor [1; 4]%nat
       [y0 / ofNat height; x0 / ofNat width;
        y1 / ofNat height; x1 / ofNat width])
  /\ ((0 < height)%nat -> (0 < width)%nat ->
      Forall in01 [y0 / ofNat height; x0 / ofNat width;
                   y1 / ofNat height; x1 / ofNat width]
      <-> (0 <= x0 /\ x0 <= ofNat width) /\ (0 <= y0 /\ y0 <= ofNat height)
          /\ (0 <= x1 /\ x1 <= ofNat width)
          /\ (0 <= y1 /\ y1 <= ofNat height)).
Proof.
  intros Hwf Hbox Himg Hshape. split.
  - destruct (normalizedCoords_run (tf.startScope e) (startEndTensor box)
                x0 y0 x1 y1 height width)
      as (e1 & coords & Hnc & Hlive & _); [by apply wfEngine_startScope|done|].
    assert (Hnc' : normalizedCoords (startEndTensor box)
                     (shape timg !! 1%nat) (shape timg !! 2%nat)
                     (tf.startScope e) = (e1, Ok coords))
      by (by rewrite Hshape).
    exists timg, e1, coords. split; [done|]. split; [done|]. split; [done|].
    by apply cutBox_unfold with (timg := timg).
  - intros Hh Hw.
    rewrite !Forall_cons, Forall_nil.
    rewrite !normalized_in01 by done. tauto.
Qed.

Lemma cutBox_normalized_coords_witness :
  handsOver (H := image.bilinear) imageEngine exampleBox 3%nat (2, 2)%nat
    (mkTensor [1; 4]%nat [20 / ofNat 40; 10 / ofNat 40;
                          50 / ofNat 40; 30 / ofNat 40])
  /\ ((0 < 40)%nat -> (0 < 40)%nat ->
      Forall in01 [20 / ofNat 40; 10 / ofNat 40; 50 / ofNat 40; 30 / ofNat 40]
      <-> (0 <= 10 /\ 10 <= ofNat 40) /\ (0 <= 20 /\ 20 <= ofNat 40)
          /\ (0 <= 30 /\ 30 <= ofNat 40) /\ (0 <= 50 /\ 50 <= ofNat 40)).
Proof.
  apply (cutBox_normalized_coords (H := image.bilinear) imageEngine exampleBox
           3%nat (mkTensor [1; 40; 40; 1]%nat (replicate (40 * 40) 1))
           (2, 2)%nat 40 40 1 10 20 30 50).
  - apply (bool_decide_unpack _). vm_compute. exact I.
  - reflexivity.
  - reflexivity.
  - reflexivity.
Defined.

(** The claim as the specification words it, with every normalized
    coordinate in [[0,1]], fails for a box that reaches outside the
    image: the end of the example box is at row 50 of an image of 40
    rows. *)
Lemma cutBox_coords_outside_unit_interval :
  ~ exists t,
      handsOver (H := image.bilinear) imageEngine exampleBox 3%nat (2, 2)%nat t
      /\ Forall in01 (values t).
Proof.
  intros (t & (timg & e1 & coords & Himg & Hnc & Hlive & _) & Hall).
  unfold live in Himg. vm_compute in Himg. injection Himg as <-.
  vm_compute in Hnc. injection Hnc as <- <-.
  unfold live in Hlive. vm_compute in Hlive. injection Hlive as <-.
  cbn [values] in Hall.
  apply Forall_cons in Hall as [_ Hall].
  apply Forall_cons in Hall as [_ Hall].
  apply Forall_cons in Hall as [[_ Hle] _].
  vm_compute in Hle. by apply Hle.
Qed.

Lemma length_flat_map_const {A B} (f : A -> list B) (l : list A) k :
  (forall x, length (f x) = k) -> length (flat_map f l) = (length l * k)%nat.
Proof.
  intros Hf. induction l as [|x l IH]; simpl; [done|].
  by rewrite length_app, Hf, IH.
Qed.

Lemma length_cropValues `{Resampler} img boxes boxInd cropSize n channels :
  length (image.cropValues img boxes boxInd cropSize n channels)
  = sizeFromShape [n; fst cropSize; snd cropSize; channels].
Proof.
  unfold image.cropValues, sizeFromShape; simpl.
  rewrite (length_flat_map_const _ _
             (fst cropSize * (snd cropSize * (channels * 1)))).
  { by rewrite length_seq. }
  intros b.
  rewrite (length_flat_map_const _ _ (snd cropSize * (channels * 1))).
  { by rewrite length_seq. }
  intros y. rewrite (length_flat_map_const _ _ (channels * 1)).
  { by rewrite length_seq. }
  intros x. rewrite length_map, length_seq. lia.
Qed.

Lemma cropAndResize_ok `{Resampler}
    e image boxes timg tb batch height width channels cropHeight cropWidth :
  wfEngine e ->
  live e image timg -> shape timg = [batch; height; width; channels] ->
  live e boxes tb -> shape tb = [1; 4]%nat ->
  (1 <= cropHeight)%nat -> (1 <= cropWidth)%nat ->
  image.cropAndResize image boxes [0%nat] (cropHeight, cropWidth) e
  = (tf.register
       (mkTensor [1%nat; cropHeight; cropWidth; channels]
          (image.cropValues timg (values tb) [0%nat] (cropHeight, cropWidth)
             1 channels))
       (spent (tensor1d [ofNat 0]) e),
     Ok (S (nextTensorId e))).
Proof.
  intros Hwf Himg Hshape Hbox Hbshape Hh Hw. live_bounds.
  unfold image.cropAndResize. apply op_result_temp.
  assert (Himg0 : live (tf.startScope e) image timg) by exact Himg.
  assert (Hbox0 : live (tf.startScope e) boxes tb) by exact Hbox.
  assert (Hn0 : nextTensorId (tf.startScope e) = nextTensorId e)
    by reflexivity.
  set (e0 := tf.startScope e) in *.
  rewrite (bind_ok _ _ _ _ _ (eq_refl : tf.makeTensor _ e0 = (_, Ok _))).
  erewrite bind_ok by (eapply shapeOf_live; solve_live).
  erewrite bind_ok by (eapply shapeOf_live; solve_live).
  rewrite Hshape, Hbshape. cbn [length fst snd negb Nat.eqb].
  apply Nat.leb_le in Hh, Hw. rewrite Hh, Hw. cbn [andb negb].
  erewrite bind_ok by (eapply kernelRead_live; solve_live).
  erewrite bind_ok by (eapply kernelRead_live; solve_live).
  reflexivity.
Qed.

(** The whole run: the output is the primitive's sample of the image
    within the normalized box. *)
Lemma cutBox_run `{Resampler}
    e box image timg height width channels x0 y0 x1 y1 cropHeight cropWidth :
  wfEngine e ->
  live e (startEndTensor box) (mkTensor [1; 4]%nat [x0; y0; x1; y1]) ->
  live e image timg ->
  shape timg = [1%nat; height; width; channels] ->
  (1 <= cropHeight)%nat -> (1 <= cropWidth)%nat ->
  exists e' out,
    cutBoxFromImageAndResize box image (cropHeight, cropWidth) e
    = (e', Ok out)
    /\ live e' out
         (mkTensor [1%nat; cropHeight; cropWidth; channels]
            (image.cropValues timg
               [y0 / ofNat height; x0 / ofNat width;
                y1 / ofNat height; x1 / ofNat width]
               [0%nat] (cropHeight, cropWidth) 1 channels)).
Proof.
  intros Hwf Hbox Himg Hshape Hh Hw. live_bounds.
  destruct (normalizedCoords_run (tf.startScope e) (startEndTensor box)
              x0 y0 x1 y1 height width)
    as (e1 & coords & Hnc & Hlive & Hg & Hwf1);
    [by apply wfEngine_startScope|done|].
  destruct (grows_startScope _ _ Hg) as (added & Hstack & _).
  assert (Himg1 : live e1 image timg).
  { eapply grows_live; [exact Hg | done | done]. }
  rewrite (cutBox_unfold e box image timg _ e1 coords Himg)
    by (by rewrite Hshape).
  rewrite (cropAndResize_ok e1 image coords timg _ 1 height width channels
             cropHeight cropWidth Hwf1 Himg1 Hshape Hlive eq_refl Hh Hw).
  eexists _, _. split; [reflexivity|].
  eapply live_endScope.
  - simpl. rewrite Hstack. reflexivity.
  - apply live_register_new.
  - left. unfold tensorsIn, container_tensor. apply elem_of_cons. by left.
Qed.

(** C3. For a box whose [startEndTensor] is one row of four coordinates,
    whatever these are, an image of shape [[1,height,width,channels]]
    and a crop size of at least one row and one column,
    [cutBoxFromImageAndResize] returns a tensor of shape
    [[1,cropHeight,cropWidth,channels]], with as many entries. *)
Theorem cutBox_output_shape `{Resampler}
    e box image timg height width channels x0 y0 x1 y1 cropHeight cropWidth :
  wfEngine e ->
  live e (startEndTensor box) (mkTensor [1; 4]%nat [x0; y0; x1; y1]) ->
  live e image timg ->
  shape timg = [1%nat; height; width; channels] ->
  (1 <= cropHeight)%nat -> (1 <= cropWidth)%nat ->
  exists e' out t,
    cutBoxFromImageAndResize box image (cropHeight, cropWidth) e
    = (e', Ok out)
    /\ live e' out t
    /\ shape t = [1%nat; cropHeight; cropWidth; channels]
    /\ wellShaped t.
Proof.
  intros Hwf Hbox Himg Hshape Hh Hw.
  destruct (cutBox_run e box image timg height width channels x0 y0 x1 y1
              cropHeight cropWidth Hwf Hbox Himg Hshape Hh Hw)
    as (e' & out & Hrun & Hout).
  eexists e', out, _. split; [exact Hrun|]. split; [exact Hout|].
  split; [reflexivity|]. unfold wellShaped. apply length_cropValues.
Qed.

(** An image of shape [[1,100,100,3]], a box that covers it and crop
    size [[50,50]]: the output has shape [[1,50,50,3]]. *)
Lemma cutBox_output_shape_witness :
  exists e' out t,
    cutBoxFromImageAndResize (H := image.bilinear)
      exampleBox 3%nat (50, 50)%nat fullImageEngine
    = (e', Ok out)
    /\ live e' out t
    /\ shape t = [1; 50; 50; 3]%nat
    /\ wellShaped t.
Proof.
  apply (cutBox_output_shape (H := image.bilinear) fullImageEngine exampleBox
           3%nat (mkTensor [1; 100; 100; 3]%nat (replicate (100 * 100 * 3) 1))
           100 100 3 0 0 100 100 50 50).
  - apply (bool_decide_unpack _). vm_compute. exact I.
  - reflexivity.
  - reflexivity.
  - reflexivity.
  - lia.
  - lia.
Defined.

(** A crop size below one row or one column is rejected by the
    primitive. *)
Example cutBox_rejects_empty_crop :
  snd (cutBoxFromImageAndResize (H := image.bilinear)
         exampleBox 3%nat (0, 50)%nat imageEngine)
  = Throw InvalidArgument.
Proof. vm_compute. reflexivity. Qed.

(** C10. [cutBoxFromImageAndResize] reads only the [startEndTensor] of
    its box: two boxes with the same [startEndTensor] give the same
    result and the same engine, whatever their other fields are. *)
Theorem cutBox_reads_only_startEndTensor `{Resampler}
    (b1 b2 : Box) image cropSize e :
  startEndTensor b1 = startEndTensor b2 ->
  cutBoxFromImageAndResize b1 image cropSize e
  = cutBoxFromImageAndResize b2 image cropSize e.
Proof. intros Heq. unfold cutBoxFromImageAndResize. by rewrite Heq. Qed.

Lemma cutBox_reads_only_startEndTensor_witness :
  cutBoxFromImageAndResize (H := image.bilinear)
    (mkBox (Some 0%nat) 1%nat 2%nat None) 3%nat (2, 2)%nat imageEngine
  = cutBoxFromImageAndResize (H := image.bilinear)
      (mkBox None 0%nat 2%nat (Some [(1, 1)])) 3%nat (2, 2)%nat imageEngine.
Proof.
  apply (cutBox_reads_only_startEndTensor (H := image.bilinear)).
  reflexivity.
Defined.

(** X19. Two boxes whose buffers are different tensors with the same
    data give outputs with the same data. *)
Lemma cutBox_depends_on_buffer_data `{Resampler}
    e (b1 b2 : Box) image timg height width channels x0 y0 x1 y1
    cropHeight cropWidth :
  wfEngine e ->
  live e (startEndTensor b1) (mkTensor [1; 4]%nat [x0; y0; x1; y1]) ->
  live e (startEndTensor b2) (mkTensor [1; 4]%nat [x0; y0; x1; y1]) ->
  live e image timg ->
  shape timg = [1%nat; height; width; channels] ->
  (1 <= cropHeight)%nat -> (1 <= cropWidth)%nat ->
  exists e1 out1 e2 out2 t,
    cutBoxFromImageAndResize b1 image (cropHeight, cropWidth) e
    = (e1, Ok out1)
    /\ cutBoxFromImageAndResize b2 image (cropHeight, cropWidth) e
       = (e2, Ok out2)
    /\ live e1 out1 t /\ live e2 out2 t.
Proof.
  intros Hwf Hb1 Hb2 Himg Hshape Hh Hw.
  destruct (cutBox_run e b1 image timg height width channels x0 y0 x1 y1
              cropHeight cropWidth Hwf Hb1 Himg Hshape Hh Hw)
    as (e1 & out1 & Hrun1 & Hout1).
  destruct (cutBox_run e b2 image timg height width channels x0 y0 x1 y1
              cropHeight cropWidth Hwf Hb2 Himg Hshape Hh Hw)
    as (e2 & out2 & Hrun2 & Hout2).
  eexists e1, out1, e2, out2, _. eauto.
Qed.

(** ** The transforms make new boxes *)

Ltac lookup_made :=
  cbn [registry tf.register spent nextTensorId];
  repeat (rewrite lookup_insert_ne by lia);
  rewrite lookup_insert_eq; reflexivity.

Lemma scaleBoxCoordinates_result e box factor s a b c d fx fy :
  wfEngine e ->
  startPoint box = Some s ->
  live e s (mkTensor [1; 2]%nat [a; b]) ->
  live e (endPoint box) (mkTensor [1; 2]%nat [c; d]) ->
  factorIs e factor fx fy ->
  exists e' box',
    scaleBoxCoordinates box factor e = (e', Ok box')
    /\ boxHolds e' box' (a * fx) (b * fy) (c * fx) (d * fy)
    /\ (disposedFlags e e' = Some <$> flagsAfterScale factor
        /\ tensorsIn box'
           = drop (length (flagsAfterScale factor) - 3) (newIds e e'))
    /\ wfEngine e' /\ grows e e'.
Proof.
  intros Hwf Hs Hsp Hep Hf. live_bounds.
  assert (Hrun : exists e' box',
             scaleBoxCoordinates box factor e = (e', Ok box')
             /\ boxHolds e' box' (a * fx) (b * fy) (c * fx) (d * fy)
             /\ (disposedFlags e e' = Some <$> flagsAfterScale factor
                 /\ tensorsIn box'
                    = drop (length (flagsAfterScale factor) - 3)
                        (newIds e e'))).
  { unfold scaleBoxCoordinates, tf.mul. rewrite Hs; simpl operand.
    destruct factor as [fid | x y]; simpl in Hf; simpl factorOperand.
    - live_bounds.
      do 2 (erewrite bind_ok
              by (eapply binaryOp_tensors;
                  [solve_live | solve_live | apply broadcastOp_row_vec])).
      erewrite bind_ok
        by (eapply concat2d_ok;
            [repeat constructor; solve_live | reflexivity]).
      erewrite (createBox_derived _ _ 1%nat);
        [| solve_wf | solve_live | reflexivity].
      eexists _, _. split; [reflexivity|]. split.
      + eexists. split; [reflexivity|]. repeat split; solve_live.
      + unfold disposedFlags, newIds.
        cbn [nextTensorId tf.register spent].
        replace (_ - _)%nat with 5%nat by lia.
        cbn [seq map fmap list_fmap flagsAfterScale length Nat.sub drop].
        split; [|reflexivity].
        repeat (apply (f_equal2 cons); [lookup_made|]). reflexivity.
    - destruct Hf as [-> ->].
      do 2 (erewrite bind_ok
              by (eapply binaryOp_tensor_array;
                  [solve_wf | solve_live | apply broadcastOp_row_vec])).
      erewrite bind_ok
        by (eapply concat2d_ok;
            [repeat constructor; solve_live | reflexivity]).
      erewrite (createBox_derived _ _ 1%nat);
        [| solve_wf | solve_live | reflexivity].
      eexists _, _. split; [reflexivity|]. split.
      + eexists. split; [reflexivity|]. repeat split; solve_live.
      + unfold disposedFlags, newIds.
        cbn [nextTensorId tf.register spent].
        replace (_ - _)%nat with 7%nat by lia.
        cbn [seq map fmap list_fmap flagsAfterScale length Nat.sub drop].
        split; [|reflexivity].
        repeat (apply (f_equal2 cons); [lookup_made|]). reflexivity. }
  destruct Hrun as (e' & box' & Hrun & Hholds & Hn).
  exists e', box'. repeat (split; [done|]).
  assert (Hfr := framed_scaleBoxCoordinates box factor e Hwf).
  rewrite Hrun in Hfr. simpl in Hfr. tauto.
Qed.

Lemma enlargeBox_result e box s a b c d factor :
  wfEngine e ->
  startPoint box = Some s ->
  live e s (mkTensor [1; 2]%nat [a; b]) ->
  live e (endPoint box) (mkTensor [1; 2]%nat [c; d]) ->
  let cx := a + (c - a) / 2 in
  let cy := b + (d - b) / 2 in
  let hx := Qabs (c - a) / 2 * factor in
  let hy := Qabs (d - b) / 2 * factor in
  exists e' box',
    enlargeBox box factor e = (e', Ok box')
    /\ boxHolds e' box' (cx - hx) (cy - hy) (cx + hx) (cy + hy)
    /\ wfEngine e' /\ grows e e'.
Proof.
  intros Hwf Hs Hsp Hep cx cy hx hy.
  destruct (enlargeBox_run e box s _ _ a b [] c d [] factor
              Hwf Hs Hsp eq_refl Hep eq_refl)
    as (e' & s' & ep' & se' & Hrun & Hs' & Hep' & Hse').
  exists e', (mkBox (Some s') ep' se' None). split; [exact Hrun|]. split.
  - exists s'. split; [reflexivity|]. by repeat split.
  - assert (Hfr := framed_enlargeBox box factor e Hwf).
    rewrite Hrun in Hfr. simpl in Hfr. tauto.
Qed.

(** C9. [scaleBoxCoordinates] and [enlargeBox] leave every tensor
    object of the engine as it was, the tensors of the input box among
    them: same data, not disposed; this holds whether the call returns
    or throws.  When they return, the three tensors of the returned box
    are distinct, were made during the call and are live, and the box
    carries no landmarks.  And they do return: on a box with live
    corners of two coordinates, [scaleBoxCoordinates] returns for every
    factor of two entries and [enlargeBox] for every factor. *)
Theorem transforms_make_new_boxes e box :
  wfEngine e ->
  (forall factor,
      preserved e (fst (scaleBoxCoordinates box factor e))
      /\ returnsFreshBox e (scaleBoxCoordinates box factor e))
  /\ (forall factor,
        preserved e (fst (enlargeBox box factor e))
        /\ returnsFreshBox e (enlargeBox box factor e))
  /\ (forall s a b c d,
        startPoint box = Some s ->
        live e s (mkTensor [1; 2]%nat [a; b]) ->
        live e (endPoint box) (mkTensor [1; 2]%nat [c; d]) ->
        (forall factor fx fy,
            factorIs e factor fx fy ->
            exists e' box',
              scaleBoxCoordinates box factor e = (e', Ok box')
              /\ freshBox e e' box' /\ preserved e e')
        /\ (forall factor,
              exists e' box',
                enlargeBox box factor e = (e', Ok box')
                /\ freshBox e e' box' /\ preserved e e')).
Proof.
  intros Hwf. split; [|split].
  - intros factor. split.
    + apply grows_preserved; [done|]. by apply framed_scaleBoxCoordinates.
    + by apply scaleBoxCoordinates_fresh.
  - intros factor. split.
    + apply grows_preserved; [done|]. by apply framed_enlargeBox.
    + by apply enlargeBox_fresh.
  - intros s a b c d Hs Hsp Hep. split.
    + intros factor fx fy Hf.
      destruct (scaleBoxCoordinates_result e box factor s a b c d fx fy
                  Hwf Hs Hsp Hep Hf) as (e' & box' & Hrun & _ & _ & _ & Hg).
      exists e', box'. split; [exact Hrun|]. split.
      * pose proof (scaleBoxCoordinates_fresh e box factor Hwf) as Hfresh.
        unfold returnsFreshBox in Hfresh. by rewrite Hrun in Hfresh.
      * by apply grows_preserved.
    + intros factor.
      destruct (enlargeBox_result e box s a b c d factor Hwf Hs Hsp Hep)
        as (e' & box' & Hrun & _ & _ & Hg).
      exists e', box'. split; [exact Hrun|]. split.
      * pose proof (enlargeBox_fresh e box factor Hwf) as Hfresh.
        unfold returnsFreshBox in Hfresh. by rewrite Hrun in Hfresh.
      * by apply grows_preserved.
Qed.

(** On the example box: factor [[2,2]] for [scaleBoxCoordinates] and
    factor 2 for [enlargeBox]. *)
Lemma transforms_make_new_boxes_witness :
  (forall factor,
      preserved exampleEngine
        (fst (scaleBoxCoordinates exampleBox factor exampleEngine))
      /\ returnsFreshBox exampleEngine
           (scaleBoxCoordinates exampleBox factor exampleEngine))
  /\ (forall factor,
        preserved exampleEngine (fst (enlargeBox exampleBox factor exampleEngine))
        /\ returnsFreshBox exampleEngine
             (enlargeBox exampleBox factor exampleEngine))
  /\ (exists e' box',
        scaleBoxCoordinates exampleBox (factorPair 2 2) exampleEngine
        = (e', Ok box')
        /\ freshBox exampleEngine e' box' /\ preserved exampleEngine e')
  /\ (exists e' box',
        enlargeBox exampleBox 2 exampleEngine = (e', Ok box')
        /\ freshBox exampleEngine e' box' /\ preserved exampleEngine e').
Proof.
  assert (Hwf : wfEngine exampleEngine).
  { apply (bool_decide_unpack _). vm_compute. exact I. }
  destruct (transforms_make_new_boxes exampleEngine exampleBox Hwf)
    as (Hscale & Henlarge & Hreturn).
  destruct (Hreturn 0%nat 10 20 30 50 eq_refl eq_refl eq_refl)
    as [Hs He].
  split; [exact Hscale|]. split; [exact Henlarge|]. split.
  - apply (Hs (factorPair 2 2) 2 2). split; reflexivity.
  - apply He.
Defined.

(** On the example box both transforms return, and the tensors of the
    input box are still what they were. *)
Example transforms_on_example :
  (exists e' b,
      scaleBoxCoordinates exampleBox (factorPair 2 2) exampleEngine
      = (e', Ok b)
      /\ live e' 0%nat (mkTensor [1; 2]%nat [10; 20])
      /\ live e' 1%nat (mkTensor [1; 2]%nat [30; 50])
      /\ live e' 2%nat (mkTensor [1; 4]%nat [10; 20; 30; 50])
      /\ tensorsIn b = [7; 8; 9]%nat)
  /\ (exists e' b,
        enlargeBox exampleBox 2 exampleEngine = (e', Ok b)
        /\ live e' 0%nat (mkTensor [1; 2]%nat [10; 20])
        /\ live e' 1%nat (mkTensor [1; 2]%nat [30; 50])
        /\ live e' 2%nat (mkTensor [1; 4]%nat [10; 20; 30; 50])
        /\ tensorsIn b = [12; 9; 11]%nat).
Proof.
  split; eexists _, _; (split; [vm_compute; reflexivity|]); repeat split.
Qed.

(** The temporaries of [enlargeBox] are disposed when its scope ends. *)
Example enlargeBox_releases_temporaries :
  let e' := fst (enlargeBox exampleBox 2 exampleEngine) in
  map (fun id => isDisposed <$> registry e' !! id) (seq 3 10)
  = [Some true; Some true; Some true; Some true; Some true; Some true;
     Some false; Some true; Some false; Some false].
Proof. vm_compute. reflexivity. Qed.

(** X13. The image and the box are borrowed by
    [cutBoxFromImageAndResize]: no tensor object of the engine changes,
    whether the call returns or throws. *)
Lemma cutBox_preserves `{Resampler} e box image cropSize :
  wfEngine e ->
  preserved e (fst (cutBoxFromImageAndResize box image cropSize e)).
Proof.
  intros Hwf. apply grows_preserved; [done|].
  by apply framed_cutBoxFromImageAndResize.
Qed.

(** ** More about size and center *)

Lemma axis_cases s e :
  (s <= e /\ Qabs (e - s) == e - s /\ Qmin s e == s /\ Qmax s e == e)
  \/ (e <= s /\ Qabs (e - s) == s - e /\ Qmin s e == e /\ Qmax s e == s).
Proof.
  destruct (Qlt_le_dec e s) as [Hlt|Hle].
  - right. assert (Hle : e <= s) by (by apply Qlt_le_weak).
    split; [done|]. split.
    + rewrite Qabs_neg by lra. ring.
    + split; [by apply Q.min_r | by apply Q.max_l].
  - left. split; [done|]. split.
    + apply Qabs_pos. lra.
    + split; [by apply Q.min_l | by apply Q.max_r].
Qed.

Lemma half_extent_min s e : s + (e - s) / 2 - (1 # 2) * Qabs (e - s) == Qmin s e.
Proof.
  destruct (axis_cases s e) as [(_ & -> & -> & _)|(_ & -> & -> & _)]; field.
Qed.

Lemma half_extent_max s e : s + (e - s) / 2 + (1 # 2) * Qabs (e - s) == Qmax s e.
Proof.
  destruct (axis_cases s e) as [(_ & -> & _ & ->)|(_ & -> & _ & ->)]; field.
Qed.

Lemma midpoint_between s e :
  Qmin s e <= s + (e - s) / 2 /\ s + (e - s) / 2 <= Qmax s e.
Proof.
  assert (H : s + (e - s) / 2 == (s + e) / 2) by field.
  destruct (axis_cases s e) as [(Hle & _ & -> & ->)|(Hle & _ & -> & ->)];
    rewrite H; split;
    (apply Qle_shift_div_l || apply Qle_shift_div_r); lra.
Qed.

(** X1. In exact arithmetic, [getBoxCenter] is the midpoint of the two
    corners: half their sum per axis, the same when the corners are
    swapped, and between the lower and the upper corner. *)
Theorem getBoxCenter_midpoint box :
  let flipped := mkCpuBox (cpuEndPoint box) (cpuStartPoint box)
                   (cpuLandmarks box) in
  Qeq2 (getBoxCenter box)
       (scale2 (1 # 2) (add2 (cpuStartPoint box) (cpuEndPoint box)))
  /\ Qeq2 (getBoxCenter flipped) (getBoxCenter box)
  /\ (fst (minCorner box) <= fst (getBoxCenter box)
      /\ fst (getBoxCenter box) <= fst (maxCorner box))
  /\ (snd (minCorner box) <= snd (getBoxCenter box)
      /\ snd (getBoxCenter box) <= snd (maxCorner box)).
Proof.
  intros flipped.
  unfold Qeq2, getBoxCenter, scale2, add2, minCorner, maxCorner, flipped;
    cbn [fst snd cpuStartPoint cpuEndPoint].
  split; [split; field|]. split; [split; field|].
  split; apply midpoint_between.
Qed.

(** X2. In exact arithmetic, the center and the size determine the box
    up to the order of its corners: center minus half the size is the
    lower corner and center plus half the size is the upper corner. *)
Theorem center_and_size_give_corners box :
  Qeq2 (sub2 (getBoxCenter box) (scale2 (1 # 2) (getBoxSize box)))
       (minCorner box)
  /\ Qeq2 (add2 (getBoxCenter box) (scale2 (1 # 2) (getBoxSize box)))
          (maxCorner box).
Proof.
  unfold Qeq2, getBoxCenter, getBoxSize, scale2, sub2, add2,
    minCorner, maxCorner; cbn [fst snd].
  repeat split; first [apply half_extent_min | apply half_extent_max].
Qed.

(** ** Scopes and temporaries *)

Lemma newIds_refl e : newIds e e = [].
Proof. unfold newIds. by rewrite Nat.sub_diag. Qed.

Lemma newIds_app e e1 e2 :
  (nextTensorId e <= nextTensorId e1)%nat ->
  (nextTensorId e1 <= nextTensorId e2)%nat ->
  newIds e e2 = newIds e e1 ++ newIds e1 e2.
Proof.
  intros H1 H2. unfold newIds.
  replace (nextTensorId e2 - nextTensorId e)%nat
    with ((nextTensorId e1 - nextTensorId e)
          + (nextTensorId e2 - nextTensorId e1))%nat by lia.
  rewrite seq_app. do 2 f_equal. lia.
Qed.

Lemma elem_of_newIds e e' id :
  id ∈ newIds e e' <-> (nextTensorId e <= id < nextTensorId e')%nat.
Proof. unfold newIds. rewrite elem_of_seq. lia. Qed.

Lemma grows_released e e' id :
  wfEngine e -> grows e e' -> isReleased e id -> isReleased e' id.
Proof.
  intros Hwf (_ & Hr & _) Hd. unfold isReleased in *.
  rewrite Hr; [done|].
  destruct (registry e !! id) as [o|] eqn:E; [|discriminate].
  by apply (Hwf _ _ E).
Qed.

Lemma accounted_unchanged {A} (m : TF A) :
  (forall e, fst (m e) = e) -> accounted m.
Proof.
  intros H e s rest Hwf Hs. rewrite H, newIds_refl. exists []. split.
  - by rewrite app_nil_r.
  - intros id Hid. by apply elem_of_nil in Hid.
Qed.

Lemma accounted_ret {A} (a : A) : accounted (ret a).
Proof. by apply accounted_unchanged. Qed.

Lemma accounted_throw {A} err : accounted (@throw A err).
Proof. by apply accounted_unchanged. Qed.

Lemma accounted_liftR {A} (r : Result A) : accounted (liftR r).
Proof. by apply accounted_unchanged. Qed.

Lemma accounted_readTensor id : accounted (tf.readTensor id).
Proof.
  apply accounted_unchanged. intros e. unfold tf.readTensor.
  destruct (registry e !! id) as [o|]; [by destruct (isDisposed o) | done].
Qed.

Lemma accounted_kernelRead id : accounted (tf.kernelRead id).
Proof.
  apply accounted_unchanged. intros e. unfold tf.kernelRead.
  destruct (registry e !! id) as [o|]; [by destruct (isDisposed o) | done].
Qed.

Lemma accounted_throwIfDisposed id : accounted (tf.throwIfDisposed id).
Proof.
  apply accounted_unchanged. intros e. unfold tf.throwIfDisposed.
  destruct (registry e !! id) as [o|]; [by destruct (isDisposed o) | done].
Qed.

Lemma accounted_shapeOf id : accounted (tf.shapeOf id).
Proof.
  apply accounted_unchanged. intros e. unfold tf.shapeOf.
  by destruct (registry e !! id).
Qed.

Lemma accounted_makeTensor t : accounted (tf.makeTensor t).
Proof.
  intros e s rest Hwf Hs. exists [nextTensorId e]. split.
  - simpl. by rewrite Hs.
  - intros id Hid. apply elem_of_newIds in Hid. simpl in Hid.
    assert (id = nextTensorId e) as -> by lia.
    left. split; [apply elem_of_cons; by left|].
    exists t. apply live_register_new.
Qed.

Lemma accounted_bind {A B} (m : TF A) (k : A -> TF B) :
  framed m -> (forall a, framed (k a)) ->
  accounted m -> (forall a, accounted (k a)) -> accounted (bind m k).
Proof.
  intros Fm Fk Pm Pk e s rest Hwf Hs. unfold bind.
  destruct (Fm e Hwf) as [Hg1 Hwf1].
  destruct (Pm e s rest Hwf Hs) as (a1 & Hs1 & Hl1).
  destruct (m e) as [e1 [a|err]]; simpl in *; [|by exists a1].
  destruct (Fk a e1 Hwf1) as [Hg2 Hwf2].
  destruct (Pk a e1 (s ++ a1) rest Hwf1 Hs1) as (a2 & Hs2 & Hl2).
  pose proof (proj1 Hg1) as Hn1. pose proof (proj1 Hg2) as Hn2.
  exists (a1 ++ a2). split; [by rewrite Hs2, app_assoc|].
  intros id Hid. rewrite (newIds_app e e1 _ Hn1 Hn2) in Hid.
  apply elem_of_app in Hid as [Hid|Hid].
  - destruct (Hl1 id Hid) as [[Hin [t Ht]]|Hd].
    + left. split; [apply elem_of_app; by left|]. exists t.
      eapply grows_live; [exact Hg2| |exact Ht].
      apply elem_of_newIds in Hid. lia.
    + right. by apply (grows_released e1).
  - destruct (Hl2 id Hid) as [[Hin Ht]|Hd]; [|by right].
    left. split; [apply elem_of_app; by right | done].
Qed.

(** Closing a scope keeps the tracked tensors of the result and
    disposes the others. *)
Lemma endScope_accounts e1 result added rest id :
  scopeStack e1 = added :: rest ->
  (id ∈ added /\ exists t, live e1 id t) \/ isReleased e1 id ->
  (id ∈ filter (fun i => i ∈ added) result
   /\ exists t, live (tf.endScope result e1) id t)
  \/ isReleased (tf.endScope result e1) id.
Proof.
  intros Hs [[Hin [t Ht]]|Hd].
  - destruct (decide (id ∈ result)) as [Hres|Hres].
    + left. split; [by apply list_elem_of_filter|].
      exists t. eapply live_endScope; [exact Hs | exact Ht | by left].
    + right. unfold isReleased, tf.endScope. rewrite Hs; simpl.
      rewrite registry_disposeAll, decide_True.
      * unfold live in Ht. by rewrite Ht.
      * by apply list_elem_of_filter.
  - right. unfold isReleased, tf.endScope in *. rewrite Hs; simpl.
    rewrite registry_disposeAll.
    destruct (decide _); [|done].
    destruct (registry e1 !! id) as [o|]; [|discriminate].
    simpl in *. done.
Qed.

Lemma nextTensorId_endScope result e : 
  nextTensorId (tf.endScope result e) = nextTensorId e.
Proof. unfold tf.endScope. by destruct (scopeStack e). Qed.

Lemma accounted_tidy {A} `{Container A} (fn : TF A) :
  accounted fn -> accounted (tf.tidy fn).
Proof.
  intros Pfn e s rest Hwf Hs.
  destruct (Pfn (tf.startScope e) [] (s :: rest)
              (wfEngine_startScope _ Hwf)) as (added & Hs1 & Hl1).
  { simpl. by rewrite Hs. }
  unfold tf.tidy, tf.closeScope.
  destruct (fn (tf.startScope e)) as [e1 r]. simpl in Hs1, Hl1.
  assert (Hend : forall result,
    exists added',
      scopeStack (tf.endScope result e1) = (s ++ added') :: rest
      /\ forall id,
           id ∈ newIds e (tf.endScope result e1) ->
           (id ∈ added' /\ exists t, live (tf.endScope result e1) id t)
           \/ isReleased (tf.endScope result e1) id).
  { intros result. exists (filter (fun i => i ∈ added) result). split.
    - unfold tf.endScope. rewrite Hs1. simpl. by rewrite foldl_track.
    - intros id Hid. unfold newIds in Hid.
      rewrite nextTensorId_endScope in Hid.
      eapply endScope_accounts; [exact Hs1 | by apply Hl1]. }
  destruct r as [a|err]; simpl; apply Hend.
Qed.

Lemma accounted_op {A} `{Container A} (fn : TF A) :
  accounted fn -> accounted (tf.op fn).
Proof. apply accounted_tidy. Qed.

Create HintDb accounted.

#[local] Hint Resolve accounted_ret accounted_throw accounted_liftR
  accounted_readTensor accounted_kernelRead accounted_throwIfDisposed
  accounted_shapeOf accounted_makeTensor : accounted.

Ltac accounted_steps :=
  repeat first
    [ solve [auto with accounted]
    | apply accounted_op
    | apply accounted_bind;
      [auto 20 with framed | intros; auto 20 with framed | | intros] ].

Lemma accounted_readAll xs : accounted (tf.readAll xs).
Proof. induction xs; simpl; accounted_steps. Qed.

Lemma accounted_convertToTensor x : accounted (tf.convertToTensor x).
Proof. destruct x; simpl; auto with accounted. Qed.

#[local] Hint Resolve accounted_readAll accounted_convertToTensor : accounted.

Lemma accounted_binaryOp f a b : accounted (tf.binaryOp f a b).
Proof. unfold tf.binaryOp. accounted_steps. Qed.

Lemma accounted_slice x begin size : accounted (tf.slice x begin size).
Proof. unfold tf.slice. accounted_steps. Qed.

Lemma accounted_concat2d xs axis : accounted (tf.concat2d xs axis).
Proof. unfold tf.concat2d. accounted_steps. Qed.

Lemma accounted_transpose x : accounted (tf.transpose x).
Proof. unfold tf.transpose. accounted_steps. Qed.

#[local] Hint Resolve accounted_binaryOp accounted_slice accounted_concat2d
  accounted_transpose : accounted.

Lemma accounted_sliceOf x begin size : accounted (tf.sliceOf x begin size).
Proof. unfold tf.sliceOf. accounted_steps. Qed.

Lemma accounted_transposeOf x : accounted (tf.transposeOf x).
Proof. unfold tf.transposeOf. accounted_steps. Qed.

Lemma accounted_tensor2d vals shp : accounted (tf.tensor2d vals shp).
Proof. unfold tf.tensor2d. case_match; auto with accounted. Qed.

Lemma accounted_dataSync x : accounted (tf.dataSync x).
Proof. unfold tf.dataSync. accounted_steps. Qed.

Lemma accounted_asPair l : accounted (asPair l).
Proof. unfold asPair. repeat case_match; auto with accounted. Qed.

#[local] Hint Resolve accounted_sliceOf accounted_transposeOf
  accounted_tensor2d accounted_dataSync accounted_asPair : accounted.

Lemma accounted_createBox se s ep : accounted (createBox se s ep).
Proof. unfold createBox. destruct s, ep; accounted_steps. Qed.

Lemma accounted_toCpuBox box : accounted (toCpuBox box).
Proof. unfold toCpuBox. destruct (startPoint box); accounted_steps. Qed.

#[local] Hint Resolve accounted_createBox accounted_toCpuBox : accounted.

Lemma accounted_normalizedCoords xyxy h w :
  accounted (normalizedCoords xyxy h w).
Proof.
  unfold normalizedCoords, tf.div.
  destruct h, w; accounted_steps.
Qed.

Lemma accounted_cropAndResize `{Resampler} img boxes boxInd cropSize :
  accounted (image.cropAndResize img boxes boxInd cropSize).
Proof.
  unfold image.cropAndResize. apply accounted_op.
  apply accounted_bind; [auto with framed| |auto with accounted|].
  { intros. repeat (apply framed_bind; [auto with framed | intros]).
    repeat case_match; auto 10 with framed. }
  intros ind.
  apply accounted_bind; [auto with framed| |auto with accounted|].
  { intros. repeat (apply framed_bind; [auto with framed | intros]).
    repeat case_match; auto 10 with framed. }
  intros ishape.
  apply accounted_bind; [auto with framed| |auto with accounted|].
  { intros. repeat case_match; auto 10 with framed. }
  intros bshape. repeat case_match; accounted_steps.
Qed.

(** When the scope of [tf.tidy] ends, every tensor made inside it is
    held by the result or has been disposed. *)
Lemma tidy_releases {A} `{Container A} (fn : TF A) e id :
  accounted fn -> wfEngine e ->
  id ∈ newIds e (fst (tf.tidy fn e)) ->
  id ∈ resultTensors (tf.tidy fn e) \/ isReleased (fst (tf.tidy fn e)) id.
Proof.
  intros Pfn Hwf.
  destruct (Pfn (tf.startScope e) [] (scopeStack e)
              (wfEngine_startScope _ Hwf) eq_refl) as (added & Hs1 & Hl1).
  unfold tf.tidy, tf.closeScope, resultTensors.
  destruct (fn (tf.startScope e)) as [e1 r]. simpl in Hs1, Hl1.
  assert (Hend : forall result,
             id ∈ newIds e (tf.endScope result e1) ->
             id ∈ result \/ isReleased (tf.endScope result e1) id).
  { intros result Hid. unfold newIds in Hid.
    rewrite nextTensorId_endScope in Hid.
    destruct (endScope_accounts e1 result added (scopeStack e) id Hs1
                (Hl1 id Hid)) as [[Hin _]|Hd]; [left|by right].
    by apply list_elem_of_filter in Hin as [_ Hin]. }
  destruct r as [a|err]; simpl; intros Hid.
  - by apply Hend.
  - destruct (Hend [] Hid) as [Hin|Hdis]; [|by right].
    by apply elem_of_nil in Hin.
Qed.

(** X10. When [enlargeBox] ends, by return or by throw, every tensor it
    made is a tensor of the returned box or has been disposed. *)
Theorem enlargeBox_releases_temporaries_always e box factor id :
  wfEngine e ->
  id ∈ newIds e (fst (enlargeBox box factor e)) ->
  id ∈ resultTensors (enlargeBox box factor e)
  \/ isReleased (fst (enlargeBox box factor e)) id.
Proof.
  intros Hwf. unfold enlargeBox, tf.mul, tf.div, tf.sub, tf.add.
  apply tidy_releases; [accounted_steps | done].
Qed.

(** X11. When [cutBoxFromImageAndResize] ends, by return or by throw,
    every tensor it made is the returned tensor or has been disposed. *)
Theorem cutBox_releases_temporaries_always `{Resampler}
    e box image cropSize id :
  wfEngine e ->
  id ∈ newIds e (fst (cutBoxFromImageAndResize box image cropSize e)) ->
  id ∈ resultTensors (cutBoxFromImageAndResize box image cropSize e)
  \/ isReleased (fst (cutBoxFromImageAndResize box image cropSize e)) id.
Proof.
  intros Hwf. unfold cutBoxFromImageAndResize, bind, tf.shapeOf.
  destruct (registry e !! image) as [o|]; simpl.
  - apply tidy_releases; [|done].
    apply accounted_bind;
      [ apply framed_normalizedCoords | intros; apply framed_cropAndResize
      | apply accounted_normalizedCoords
      | intros; apply accounted_cropAndResize ].
  - rewrite newIds_refl. intros Hid. by apply elem_of_nil in Hid.
Qed.


(** ** Errors *)

Lemma readTensor_released e id :
  isReleased e id -> tf.readTensor id e = (e, Throw Disposed).
Proof.
  unfold isReleased, tf.readTensor.
  destruct (registry e !! id) as [[t dis]|]; simpl; [|discriminate].
  intros Hd. injection Hd as ->. done.
Qed.

Lemma throwIfDisposed_released e id :
  isReleased e id -> tf.throwIfDisposed id e = (e, Throw Disposed).
Proof.
  unfold isReleased, tf.throwIfDisposed.
  destruct (registry e !! id) as [[t dis]|]; simpl; [|discriminate].
  intros Hd. injection Hd as ->. done.
Qed.

Lemma kernelRead_released e id :
  isReleased e id -> tf.kernelRead id e = (e, Throw BackendFailure).
Proof.
  unfold isReleased, tf.kernelRead.
  destruct (registry e !! id) as [[t dis]|]; simpl; [|discriminate].
  intros Hd. injection Hd as ->. done.
Qed.

Lemma isReleased_register t e id :
  wfEngine e -> isReleased e id -> isReleased (tf.register t e) id.
Proof.
  unfold isReleased. intros Hwf Hd. simpl.
  rewrite lookup_insert_ne; [done|].
  destruct (registry e !! id) as [o|] eqn:E; [|discriminate].
  apply Hwf in E. simpl in E. lia.
Qed.

Lemma isReleased_disposeBox e box s id :
  startPoint box = Some s ->
  is_Some (registry e !! id) ->
  id ∈ [startEndTensor box; s; endPoint box] ->
  isReleased (fst (disposeBox (Some box) e)) id.
Proof.
  intros Hs [o Ho] Hin. destruct box as [sp ep se lm].
  cbn [startPoint endPoint startEndTensor] in *. subst sp.
  rewrite disposeBox_present. unfold isReleased. cbn [fst].
  rewrite registry_disposeAll, decide_True, Ho; [done|].
  rewrite !elem_of_cons in *. tauto.
Qed.

Lemma wfEngine_disposeBox e box :
  wfEngine e -> wfEngine (fst (disposeBox box e)).
Proof.
  intros Hwf. destruct box as [[[s|] ep se lm]|]; [|done..].
  rewrite disposeBox_present. by apply wfEngine_disposeAll.
Qed.

Lemma bind_fails {A B} (m : TF A) (k : A -> TF B) e err :
  snd (m e) = Throw err -> snd (bind m k e) = Throw err.
Proof. unfold bind. destruct (m e) as [e1 r]; simpl. by intros ->. Qed.

(** A kernel run on a disposed tensor fails in the backend. *)
Lemma binaryOp_released f e x b :
  wfEngine e -> isReleased e x -> b <> tf.ofNull ->
  snd (tf.binaryOp f (tf.ofTensor x) b e) = Throw BackendFailure.
Proof.
  intros Hwf Hx Hb. unfold tf.binaryOp. apply op_throws.
  assert (Hx0 : isReleased (tf.startScope e) x) by exact Hx.
  pose proof (wfEngine_startScope _ Hwf) as Hwf0.
  unfold tf.convertToTensor.
  destruct b as [y|q|l|]; [| | |done]; unfold bind, ret, tf.makeTensor.
  - by rewrite (kernelRead_released _ _ Hx0).
  - by rewrite (kernelRead_released _ _
                  (isReleased_register _ _ _ Hwf0 Hx0)).
  - by rewrite (kernelRead_released _ _
                  (isReleased_register _ _ _ Hwf0 Hx0)).
Qed.

Lemma slice_released e x begin size :
  isReleased e x -> snd (tf.slice x begin size e) = Throw BackendFailure.
Proof.
  intros Hx. unfold tf.slice. apply op_throws. apply bind_fails.
  by rewrite (kernelRead_released (tf.startScope e) x Hx).
Qed.

(** X14. After [disposeBox], every operation that reads the box throws,
    each in the way of its first access to a disposed tensor:
    [enlargeBox] starts with [dataSync] and [cutBoxFromImageAndResize]
    with the method [slice], which both check the tensor and throw
    [Disposed]; [scaleBoxCoordinates] and [createBox] start with an
    operation in function form, which does not check and fails in the
    backend. *)
Theorem use_after_disposeBox_throws `{Resampler}
    e box s factor q image cropSize :
  wfEngine e ->
  startPoint box = Some s ->
  is_Some (registry e !! s) ->
  is_Some (registry e !! startEndTensor box) ->
  is_Some (registry e !! image) ->
  let e' := fst (disposeBox (Some box) e) in
  snd (scaleBoxCoordinates box factor e') = Throw BackendFailure
  /\ snd (enlargeBox box q e') = Throw Disposed
  /\ snd (cutBoxFromImageAndResize box image cropSize e') = Throw Disposed
  /\ snd (createBox (startEndTensor box) None None e')
     = Throw BackendFailure.
Proof.
  intros Hwf Hs Hsreg Hsereg Himg e'.
  assert (Hwf' : wfEngine e') by (by apply wfEngine_disposeBox).
  assert (Hrs : isReleased e' s).
  { apply (isReleased_disposeBox e box s); [done..|].
    rewrite !elem_of_cons; auto. }
  assert (Hrse : isReleased e' (startEndTensor box)).
  { apply (isReleased_disposeBox e box s); [done..|].
    rewrite !elem_of_cons; auto. }
  split; [|split; [|split]].
  - unfold scaleBoxCoordinates, tf.mul. rewrite Hs; simpl operand.
    apply bind_fails. apply binaryOp_released; [done..|].
    by destruct factor.
  - unfold enlargeBox. apply tidy_throws.
    apply bind_fails. unfold toCpuBox. rewrite Hs.
    apply bind_fails. unfold tf.dataSync. apply bind_fails.
    by rewrite (readTensor_released (tf.startScope e') s Hrs).
  - unfold cutBoxFromImageAndResize, tf.shapeOf, bind at 1.
    assert (Himg' : is_Some (registry e' !! image)).
    { destruct Himg as [o Ho]. destruct box as [sp ep se lm].
      cbn [startPoint] in Hs. subst sp e'. rewrite disposeBox_present.
      cbn [fst].
      rewrite registry_disposeAll, Ho. case_decide; eauto. }
    destruct Himg' as [o' ->]. simpl.
    apply tidy_throws. apply bind_fails.
    unfold normalizedCoords. apply bind_fails.
    unfold tf.sliceOf. apply bind_fails.
    by rewrite (throwIfDisposed_released (tf.startScope e') _ Hrse).
  - unfold createBox. apply bind_fails. by apply slice_released.
Qed.

Lemma slice_narrow r c vals k :
  (c < k + 2)%nat ->
  Kernel.slice (mkTensor [r; c] vals) (0, k)%nat (-1, 2)%Z
  = Throw ShapeMismatch.
Proof.
  intros Hc. unfold Kernel.slice, Kernel.sliceExtent; simpl.
  change (Z.to_nat 2) with 2%nat.
  replace (k + 2 <=? c)%nat with false; [done|].
  symmetry. apply Nat.leb_gt. lia.
Qed.

Lemma lookup_rowsOf r c vals i :
  (i < r)%nat ->
  Kernel.rowsOf r c vals !! i = Some (take c (drop (i * c) vals)).
Proof.
  revert vals i. induction r as [|r IH]; intros vals i Hi; [lia|].
  destruct i as [|i]; simpl.
  - by rewrite drop_0.
  - rewrite IH by lia. by rewrite drop_drop.
Qed.

Lemma lookup_concat_uniform (rs : list (list Q)) w i j row :
  Forall (fun r => length r = w) rs ->
  rs !! i = Some row -> (j < w)%nat ->
  concat rs !! (i * w + j)%nat = row !! j.
Proof.
  intros Hw. revert i. induction Hw as [|r0 rs Hr0 _ IH]; intros i Hi Hj.
  - done.
  - destruct i as [|i]; simpl in *.
    + injection Hi as ->. apply lookup_app_l. lia.
    + rewrite lookup_app_r by lia.
      replace (w + i * w + j - length r0)%nat with (i * w + j)%nat by lia.
      by apply IH.
Qed.

(** Two columns of a buffer, from column [k] on: the entry at row [i]
    and column [j] of the slice is the entry at row [i] and column
    [k + j] of the buffer. *)
Lemma slice_two_columns r c vals k :
  length vals = (r * c)%nat -> (k + 2 <= c)%nat ->
  exists v,
    Kernel.slice (mkTensor [r; c] vals) (0, k)%nat (-1, 2)%Z
    = Ok (mkTensor [r; 2%nat] v)
    /\ forall i j, (i < r)%nat -> (j < 2)%nat ->
                   v !! (i * 2 + j)%nat = vals !! (i * c + (k + j))%nat.
Proof.
  intros Hl Hc. unfold Kernel.slice, Kernel.sliceExtent; simpl.
  change (Z.to_nat 2) with 2%nat.
  replace (k + 2 <=? c)%nat with true; [|symmetry; apply Nat.leb_le; lia].
  rewrite Nat.sub_0_r, drop_0.
  rewrite take_ge by (rewrite length_rowsOf; lia).
  eexists. split; [reflexivity|]. intros i j Hi Hj.
  pose proof (rowsOf_width r c vals Hl) as Hw.
  rewrite (lookup_concat_uniform _ 2 i j
             (take 2 (drop k (take c (drop (i * c) vals))))); [| | |done].
  - rewrite lookup_take_lt by done. rewrite lookup_drop.
    rewrite lookup_take_lt by lia. by rewrite lookup_drop.
  - apply Forall_fmap. eapply Forall_impl; [exact Hw|].
    intros row Hrow; simpl in *. rewrite length_take, length_drop. lia.
  - rewrite list_lookup_fmap, lookup_rowsOf by done. done.
Qed.

Lemma slice_fails e x t begin size err :
  live e x t -> Kernel.slice t begin size = Throw err ->
  snd (tf.slice x begin size e) = Throw err.
Proof.
  intros Hx Hr. unfold tf.slice. apply op_throws.
  rewrite (bind_ok _ _ _ _ _ (kernelRead_live (tf.startScope e) _ _ Hx)).
  unfold bind, liftR. by rewrite Hr.
Qed.

(** X16. [createBox] on a buffer alone throws a shape mismatch when the
    buffer has fewer than four columns.  It does not check for more:
    with four columns or more it returns a box whose start point is
    columns 0 and 1 of the buffer and whose end point is columns 2 and
    3, row by row; further columns are dropped. *)
Theorem createBox_needs_four_columns e se r c vals :
  wfEngine e ->
  live e se (mkTensor [r; c] vals) ->
  length vals = (r * c)%nat ->
  ((c < 4)%nat -> snd (createBox se None None e) = Throw ShapeMismatch)
  /\ ((4 <= c)%nat ->
      exists e' s ep vs vep,
        createBox se None None e = (e', Ok (mkBox (Some s) ep se None))
        /\ live e' s (mkTensor [r; 2%nat] vs)
        /\ live e' ep (mkTensor [r; 2%nat] vep)
        /\ forall i j,
             (i < r)%nat -> (j < 2)%nat ->
             vs !! (i * 2 + j)%nat = vals !! (i * c + j)%nat
             /\ vep !! (i * 2 + j)%nat = vals !! (i * c + (2 + j))%nat).
Proof.
  intros Hwf Hse Hl. live_bounds. split; intros Hc.
  - unfold createBox.
    destruct (decide (c < 2)%nat) as [Hc2|Hc2].
    + apply bind_fails.
      eapply slice_fails; [solve_live | apply slice_narrow; lia].
    + destruct (slice_two_columns r c vals 0 Hl) as (t & Ht & _); [lia|].
      erewrite bind_ok by (eapply slice_ok; [solve_live | exact Ht]).
      apply bind_fails.
      eapply slice_fails; [solve_live | apply slice_narrow; lia].
  - unfold createBox.
    destruct (slice_two_columns r c vals 0 Hl) as (v0 & Ht0 & Hv0); [lia|].
    destruct (slice_two_columns r c vals 2 Hl) as (v2 & Ht2 & Hv2); [lia|].
    erewrite bind_ok by (eapply slice_ok; [solve_live | exact Ht0]).
    erewrite bind_ok by (eapply slice_ok; [solve_live | exact Ht2]).
    eexists _, _, _, v0, v2. split; [reflexivity|].
    split; [solve_live|]. split; [solve_live|].
    intros i j Hi Hj. split; [by apply (Hv0 i j) | by apply Hv2].
Qed.

Lemma slice_one_column n vals k :
  (k < 4)%nat ->
  exists v, Kernel.slice (mkTensor [n; 4%nat] vals) (0, k)%nat (-1, 1)%Z
            = Ok (mkTensor [n; 1%nat] v).
Proof.
  intros Hk. unfold Kernel.slice, Kernel.sliceExtent; simpl.
  change (Z.to_nat 1) with 1%nat.
  replace (k + 1 <=? 4)%nat with true; [|symmetry; apply Nat.leb_le; lia].
  rewrite Nat.sub_0_r. eauto.
Qed.

Lemma binaryOp_fails f e x tx l err :
  wfEngine e ->
  live e x tx -> Kernel.broadcastOp f tx (tensor1d l) = Throw err ->
  snd (tf.binaryOp f (tf.ofTensor x) (tf.ofArray l) e) = Throw err.
Proof.
  intros Hwf Hx Hr. live_bounds.
  unfold tf.binaryOp. apply op_throws.
  unfold tf.convertToTensor, tf.makeTensor, bind, ret, liftR.
  rewrite (kernelRead_live _ x tx),
    (kernelRead_live _ _ _ (live_register_new _ _)).
  - by rewrite Hr.
  - apply live_register_old; [done | simpl; lia].
Qed.

Lemma broadcast_row_mismatch f m v a0 a1 a2 a3 :
  m <> 1%nat -> m <> 4%nat ->
  Kernel.broadcastOp f (mkTensor [1%nat; m] v) (tensor1d [a0; a1; a2; a3])
  = Throw ShapeMismatch.
Proof.
  intros H1 H4. unfold Kernel.broadcastOp, Kernel.assertAndGetBroadcastShape.
  simpl.
  apply Nat.eqb_neq in H1, H4. by rewrite H1, H4.
Qed.

(** X17. [cutBoxFromImageAndResize] takes one box at a time: when the
    combined buffer has a number of rows other than one, it throws a
    shape mismatch. *)
Theorem cutBox_takes_one_box `{Resampler}
    e box image timg batch height width channels n vals cropSize :
  wfEngine e ->
  live e (startEndTensor box) (mkTensor [n; 4%nat] vals) ->
  n <> 1%nat ->
  live e image timg ->
  shape timg = [batch; height; width; channels] ->
  snd (cutBoxFromImageAndResize box image cropSize e) = Throw ShapeMismatch.
Proof.
  intros Hwf Hbox Hn Himg Hshape. live_bounds.
  pose proof (wfEngine_startScope _ Hwf) as Hwf0.
  assert (Hbox0 : live (tf.startScope e) (startEndTensor box)
                    (mkTensor [n; 4%nat] vals)) by exact Hbox.
  unfold cutBoxFromImageAndResize.
  rewrite (bind_ok _ _ _ _ _ (shapeOf_live _ _ _ Himg)). rewrite Hshape.
  apply tidy_throws.
  set (e0 := tf.startScope e) in *.
  assert (Hn0 : nextTensorId e0 = nextTensorId e) by reflexivity.
  destruct (slice_one_column n vals 1) as [v1 Hv1]; [lia|].
  destruct (slice_one_column n vals 0) as [v0 Hv0]; [lia|].
  destruct (slice_one_column n vals 3) as [v3 Hv3]; [lia|].
  destruct (slice_one_column n vals 2) as [v2 Hv2]; [lia|].
  change ([batch; height; width; channels] !! 1%nat) with (Some height).
  change ([batch; height; width; channels] !! 2%nat) with (Some width).
  apply bind_fails.
  unfold normalizedCoords, tf.div.
  erewrite bind_ok by (eapply sliceOf_ok; [solve_live | exact Hv1]).
  erewrite bind_ok by (eapply sliceOf_ok; [solve_live | exact Hv0]).
  erewrite bind_ok by (eapply sliceOf_ok; [solve_live | exact Hv3]).
  erewrite bind_ok by (eapply sliceOf_ok; [solve_live | exact Hv2]).
  erewrite bind_ok
    by (eapply concat2d_ok;
        [repeat constructor; solve_live | reflexivity]).
  erewrite bind_ok by (eapply transposeOf_ok; [solve_live | reflexivity]).
  eapply binaryOp_fails; [solve_wf | solve_live |].
  apply broadcast_row_mismatch; simpl; lia.
Qed.

(** ** Transforms on well-formed boxes *)

Lemma boxHolds_consistent e box a b c d :
  boxHolds e box a b c d -> consistent e box.
Proof.
  intros (s & Hs & Hsp & Hep & Hse).
  exists s, 1%nat, [a; b; c; d]. by repeat split.
Qed.

(** X9. The box that [scaleBoxCoordinates] or [enlargeBox] returns is
    consistent: its points are the two halves of its combined buffer. *)
Theorem transforms_return_consistent_boxes e box s a b c d :
  wfEngine e ->
  startPoint box = Some s ->
  live e s (mkTensor [1; 2]%nat [a; b]) ->
  live e (endPoint box) (mkTensor [1; 2]%nat [c; d]) ->
  (forall factor fx fy,
      factorIs e factor fx fy ->
      exists e' box',
        scaleBoxCoordinates box factor e = (e', Ok box')
        /\ consistent e' box')
  /\ (forall factor,
        exists e' box',
          enlargeBox box factor e = (e', Ok box') /\ consistent e' box').
Proof.
  intros Hwf Hs Hsp Hep. split.
  - intros factor fx fy Hf.
    destruct (scaleBoxCoordinates_result e box factor s a b c d fx fy
                Hwf Hs Hsp Hep Hf) as (e' & box' & Hrun & Hh & _).
    exists e', box'. split; [done|]. by eapply boxHolds_consistent.
  - intros factor.
    destruct (enlargeBox_result e box s a b c d factor Hwf Hs Hsp Hep)
      as (e' & box' & Hrun & Hh & _).
    exists e', box'. split; [done|]. by eapply boxHolds_consistent.
Qed.

(** ** How the transforms compose *)

Lemma boxHolds_inv e box a b c d :
  boxHolds e box a b c d ->
  exists s, startPoint box = Some s
            /\ live e s (mkTensor [1; 2]%nat [a; b])
            /\ live e (endPoint box) (mkTensor [1; 2]%nat [c; d]).
Proof. intros (s & Hs & Hsp & Hep & _). eauto. Qed.

(** X6. Scaling by one factor and then by another gives the corners of
    one scaling by the product of the factors; scaling by a factor
    without zero entries and then by its inverse gives back the
    corners of the input. *)
Theorem scaleBoxCoordinates_composes e box factor s a b c d fx fy gx gy :
  wfEngine e ->
  startPoint box = Some s ->
  live e s (mkTensor [1; 2]%nat [a; b]) ->
  live e (endPoint box) (mkTensor [1; 2]%nat [c; d]) ->
  factorIs e factor fx fy ->
  exists e1 box1 e2 box2 e3 box3,
    scaleBoxCoordinates box factor e = (e1, Ok box1)
    /\ scaleBoxCoordinates box1 (factorPair gx gy) e1 = (e2, Ok box2)
    /\ scaleBoxCoordinates box (factorPair (fx * gx) (fy * gy)) e
       = (e3, Ok box3)
    /\ cornersAre e2 box2 (a * (fx * gx), b * (fy * gy))
                          (c * (fx * gx), d * (fy * gy))
    /\ cornersAre e3 box3 (a * (fx * gx), b * (fy * gy))
                          (c * (fx * gx), d * (fy * gy))
    /\ (~ fx == 0 -> ~ fy == 0 -> gx == / fx -> gy == / fy ->
        cornersAre e2 box2 (a, b) (c, d)).
Proof.
  intros Hwf Hs Hsp Hep Hf.
  destruct (scaleBoxCoordinates_result e box factor s a b c d fx fy
              Hwf Hs Hsp Hep Hf)
    as (e1 & box1 & Hrun1 & Hh1 & _ & Hwf1 & _).
  destruct (boxHolds_inv _ _ _ _ _ _ Hh1) as (s1 & Hs1 & Hsp1 & Hep1).
  destruct (scaleBoxCoordinates_result e1 box1 (factorPair gx gy) s1
              _ _ _ _ gx gy Hwf1 Hs1 Hsp1 Hep1 (conj eq_refl eq_refl))
    as (e2 & box2 & Hrun2 & Hh2 & _).
  destruct (scaleBoxCoordinates_result e box
              (factorPair (fx * gx) (fy * gy)) s a b c d _ _
              Hwf Hs Hsp Hep (conj eq_refl eq_refl))
    as (e3 & box3 & Hrun3 & Hh3 & _).
  exists e1, box1, e2, box2, e3, box3.
  repeat (split; [done|]). split; [|split].
  - eexists _, _, _, _. split; [exact Hh2|].
    unfold Qeq2; cbn [fst snd]. repeat split; ring.
  - eexists _, _, _, _. split; [exact Hh3|].
    unfold Qeq2; cbn [fst snd]. repeat split; reflexivity.
  - intros Hfx Hfy Hgx Hgy.
    eexists _, _, _, _. split; [exact Hh2|].
    unfold Qeq2; cbn [fst snd]. rewrite Hgx, Hgy.
    repeat split; field; done.
Qed.

Lemma Qabs_scaled x k : 0 <= k -> Qabs (x * k) == Qabs x * k.
Proof. intros Hk. by rewrite Qabs_Qmult, (Qabs_pos k). Qed.

Lemma enlarged_extent s e f :
  0 <= f ->
  Qabs (s + (e - s) / 2 + Qabs (e - s) / 2 * f
        - (s + (e - s) / 2 - Qabs (e - s) / 2 * f))
  == Qabs (e - s) * f.
Proof.
  intros Hf.
  assert (H : s + (e - s) / 2 + Qabs (e - s) / 2 * f
              - (s + (e - s) / 2 - Qabs (e - s) / 2 * f)
              == Qabs (e - s) * f) by field.
  rewrite H, Qabs_scaled by done.
  by rewrite (Qabs_pos (Qabs (e - s))) by apply Qabs_nonneg.
Qed.

(** X5. Enlarging by [f >= 0] and then by [g] gives the corners of one
    enlargement by [f * g]. *)
Theorem enlargeBox_composes e box s a b c d f g :
  wfEngine e ->
  startPoint box = Some s ->
  live e s (mkTensor [1; 2]%nat [a; b]) ->
  live e (endPoint box) (mkTensor [1; 2]%nat [c; d]) ->
  0 <= f ->
  let cpu := mkCpuBox (a, b) (c, d) None in
  let start := sub2 (getBoxCenter cpu) (scale2 (f * g / 2) (getBoxSize cpu)) in
  let finish := add2 (getBoxCenter cpu) (scale2 (f * g / 2) (getBoxSize cpu)) in
  exists e1 box1 e2 box2 e3 box3,
    enlargeBox box f e = (e1, Ok box1)
    /\ enlargeBox box1 g e1 = (e2, Ok box2)
    /\ enlargeBox box (f * g) e = (e3, Ok box3)
    /\ cornersAre e2 box2 start finish
    /\ cornersAre e3 box3 start finish.
Proof.
  intros Hwf Hs Hsp Hep Hf cpu start finish.
  destruct (enlargeBox_result e box s a b c d f Hwf Hs Hsp Hep)
    as (e1 & box1 & Hrun1 & Hh1 & Hwf1 & _).
  destruct (boxHolds_inv _ _ _ _ _ _ Hh1) as (s1 & Hs1 & Hsp1 & Hep1).
  destruct (enlargeBox_result e1 box1 s1 _ _ _ _ g Hwf1 Hs1 Hsp1 Hep1)
    as (e2 & box2 & Hrun2 & Hh2 & _).
  destruct (enlargeBox_result e box s a b c d (f * g) Hwf Hs Hsp Hep)
    as (e3 & box3 & Hrun3 & Hh3 & _).
  exists e1, box1, e2, box2, e3, box3.
  repeat (split; [done|]).
  pose proof (enlarged_extent a c f Hf) as Hx.
  pose proof (enlarged_extent b d f Hf) as Hy.
  split.
  - eexists _, _, _, _. split; [exact Hh2|].
    unfold Qeq2, start, finish, sub2, add2, scale2, getBoxCenter, getBoxSize,
      cpu; cbn [fst snd cpuStartPoint cpuEndPoint].
    rewrite Hx, Hy. repeat split; field.
  - eexists _, _, _, _. split; [exact Hh3|].
    unfold Qeq2, start, finish, sub2, add2, scale2, getBoxCenter, getBoxSize,
      cpu; cbn [fst snd cpuStartPoint cpuEndPoint].
    repeat split; field.
Qed.

(** X4. For a factor that is not negative, the box that [enlargeBox]
    returns has its start before its end on both axes, whatever the
    order of the input corners.  With factor 1 it is, in exact
    arithmetic, the input box with its corners sorted, so an ordered
    box comes back with the same corners. *)
Theorem enlargeBox_orders_corners e box s a b c d factor :
  wfEngine e ->
  startPoint box = Some s ->
  live e s (mkTensor [1; 2]%nat [a; b]) ->
  live e (endPoint box) (mkTensor [1; 2]%nat [c; d]) ->
  let cpu := mkCpuBox (a, b) (c, d) None in
  exists e' box' a' b' c' d',
    enlargeBox box factor e = (e', Ok box')
    /\ boxHolds e' box' a' b' c' d'
    /\ (0 <= factor -> a' <= c' /\ b' <= d')
    /\ (factor == 1 ->
        Qeq2 (a', b') (minCorner cpu) /\ Qeq2 (c', d') (maxCorner cpu)).
Proof.
  intros Hwf Hs Hsp Hep cpu.
  destruct (enlargeBox_result e box s a b c d factor Hwf Hs Hsp Hep)
    as (e' & box' & Hrun & Hh & _).
  eexists e', box', _, _, _, _. split; [exact Hrun|]. split; [exact Hh|].
  split.
  - intros Hf.
    pose proof (Qabs_nonneg (c - a)). pose proof (Qabs_nonneg (d - b)).
    assert (0 <= Qabs (c - a) / 2 * factor).
    { apply Qmult_le_0_compat; [|done]. apply Qle_shift_div_l; lra. }
    assert (0 <= Qabs (d - b) / 2 * factor).
    { apply Qmult_le_0_compat; [|done]. apply Qle_shift_div_l; lra. }
    split; lra.
  - intros Hf. unfold Qeq2, minCorner, maxCorner, cpu;
      cbn [fst snd cpuStartPoint cpuEndPoint].
    rewrite Hf.
    rewrite <- (half_extent_min a c), <- (half_extent_min b d).
    rewrite <- (half_extent_max a c), <- (half_extent_max b d).
    repeat split; field.
Qed.

Lemma handsOver_row `{Resampler}
    e box image timg cropSize height width channels x0 y0 x1 y1 :
  wfEngine e ->
  live e (startEndTensor box) (mkTensor [1; 4]%nat [x0; y0; x1; y1]) ->
  live e image timg ->
  shape timg = [1%nat; height; width; channels] ->
  handsOver e box image cropSize
    (mkTensor [1; 4]%nat
       [y0 / ofNat height; x0 / ofNat width;
        y1 / ofNat height; x1 / ofNat width]).
Proof.
  intros Hwf Hbox Himg Hshape.
  destruct (normalizedCoords_run (tf.startScope e) (startEndTensor box)
              x0 y0 x1 y1 height width)
    as (e1 & coords & Hnc & Hlive & _); [by apply wfEngine_startScope|done|].
  assert (Hnc' : normalizedCoords (startEndTensor box)
                   (shape timg !! 1%nat) (shape timg !! 2%nat)
                   (tf.startScope e) = (e1, Ok coords))
    by (by rewrite Hshape).
  exists timg, e1, coords. split; [done|]. split; [done|]. split; [done|].
  by apply cutBox_unfold with (timg := timg).
Qed.

Lemma ofNat_pos n : (0 < n)%nat -> ~ ofNat n == 0.
Proof.
  intros Hn H0. unfold ofNat, Qeq in H0. simpl in H0. lia.
Qed.

(** X8. In exact arithmetic, a box in normalized coordinates, scaled
    to pixels by [[width, height]] and then cropped from an image of
    that width and height, hands the primitive its own coordinates in
    the order [[y0, x0, y1, x1]]: the division undoes the product. *)
Theorem scale_to_pixels_then_crop `{Resampler}
    e box s a b c d image timg height width channels cropSize :
  wfEngine e ->
  startPoint box = Some s ->
  live e s (mkTensor [1; 2]%nat [a; b]) ->
  live e (endPoint box) (mkTensor [1; 2]%nat [c; d]) ->
  live e image timg ->
  shape timg = [1%nat; height; width; channels] ->
  (0 < height)%nat -> (0 < width)%nat ->
  exists e1 box1 t,
    scaleBoxCoordinates box (factorPair (ofNat width) (ofNat height)) e
    = (e1, Ok box1)
    /\ handsOver e1 box1 image cropSize t
    /\ shape t = [1; 4]%nat
    /\ Forall2 Qeq (values t) [b; a; d; c].
Proof.
  intros Hwf Hs Hsp Hep Himg Hshape Hh Hw. live_bounds.
  destruct (scaleBoxCoordinates_result e box
              (factorPair (ofNat width) (ofNat height)) s a b c d _ _
              Hwf Hs Hsp Hep (conj eq_refl eq_refl))
    as (e1 & box1 & Hrun & (s1 & _ & _ & _ & Hse1) & _ & Hwf1 & Hg).
  assert (Himg1 : live e1 image timg) by (by eapply grows_live).
  eexists e1, box1, _. split; [exact Hrun|]. split.
  { by eapply handsOver_row. }
  split; [reflexivity|]. cbn [values].
  pose proof (ofNat_pos _ Hh). pose proof (ofNat_pos _ Hw).
  repeat constructor; field; done.
Qed.

(** X7. In exact arithmetic, for a scale factor without negative
    entries, enlarging and then scaling gives the same corners as
    scaling and then enlarging. *)
Theorem scale_and_enlarge_commute e box s a b c d kx ky f :
  wfEngine e ->
  startPoint box = Some s ->
  live e s (mkTensor [1; 2]%nat [a; b]) ->
  live e (endPoint box) (mkTensor [1; 2]%nat [c; d]) ->
  0 <= kx -> 0 <= ky ->
  exists e1 box1 e2 box2 e3 box3 e4 box4 start finish,
    enlargeBox box f e = (e1, Ok box1)
    /\ scaleBoxCoordinates box1 (factorPair kx ky) e1 = (e2, Ok box2)
    /\ scaleBoxCoordinates box (factorPair kx ky) e = (e3, Ok box3)
    /\ enlargeBox box3 f e3 = (e4, Ok box4)
    /\ cornersAre e2 box2 start finish
    /\ cornersAre e4 box4 start finish.
Proof.
  intros Hwf Hs Hsp Hep Hkx Hky.
  destruct (enlargeBox_result e box s a b c d f Hwf Hs Hsp Hep)
    as (e1 & box1 & Hrun1 & Hh1 & Hwf1 & _).
  destruct (boxHolds_inv _ _ _ _ _ _ Hh1) as (s1 & Hs1 & Hsp1 & Hep1).
  destruct (scaleBoxCoordinates_result e1 box1 (factorPair kx ky) s1
              _ _ _ _ kx ky Hwf1 Hs1 Hsp1 Hep1 (conj eq_refl eq_refl))
    as (e2 & box2 & Hrun2 & Hh2 & _).
  destruct (scaleBoxCoordinates_result e box (factorPair kx ky) s
              a b c d kx ky Hwf Hs Hsp Hep (conj eq_refl eq_refl))
    as (e3 & box3 & Hrun3 & Hh3 & _ & Hwf3 & _).
  destruct (boxHolds_inv _ _ _ _ _ _ Hh3) as (s3 & Hs3 & Hsp3 & Hep3).
  destruct (enlargeBox_result e3 box3 s3 _ _ _ _ f Hwf3 Hs3 Hsp3 Hep3)
    as (e4 & box4 & Hrun4 & Hh4 & _).
  eexists e1, box1, e2, box2, e3, box3, e4, box4, _, _.
  repeat (split; [done|]). split.
  - eexists _, _, _, _. split; [exact Hh2|]. split; split; reflexivity.
  - eexists _, _, _, _. split; [exact Hh4|].
    assert (Hx : Qabs (c * kx - a * kx) == Qabs (c - a) * kx).
    { rewrite <- Qabs_scaled by done.
      assert (E : c * kx - a * kx == (c - a) * kx) by ring. by rewrite E. }
    assert (Hy : Qabs (d * ky - b * ky) == Qabs (d - b) * ky).
    { rewrite <- Qabs_scaled by done.
      assert (E : d * ky - b * ky == (d - b) * ky) by ring. by rewrite E. }
    unfold Qeq2; cbn [fst snd]. rewrite Hx, Hy.
    repeat split; field.
Qed.

Lemma disposed_twice o : disposed (disposed o) = disposed o.
Proof. reflexivity. Qed.

(** X15. Disposing a box a second time changes nothing and does not
    throw. *)
Theorem disposeBox_twice box e :
  disposeBox box (fst (disposeBox box e)) = disposeBox box e.
Proof.
  destruct box as [[[s|] ep se lm]|]; [|reflexivity..].
  rewrite !disposeBox_present. cbn [fst]. f_equal.
  set (ids := [ep; s; se]).
  destruct e as [reg next scopes].
  assert (Hreg : registry (foldr tf.disposeTensor
                   (foldr tf.disposeTensor (mkEngine reg next scopes) ids) ids)
                 = registry (foldr tf.disposeTensor
                               (mkEngine reg next scopes) ids)).
  { apply map_eq. intros id. rewrite !registry_disposeAll.
    destruct (decide (id ∈ ids)); [|done].
    destruct (registry _ !! id); done. }
  pose proof (nextTensorId_disposeAll ids
                (foldr tf.disposeTensor (mkEngine reg next scopes) ids)) as Hn.
  pose proof (scopeStack_disposeAll ids
                (foldr tf.disposeTensor (mkEngine reg next scopes) ids)) as Hs.
  destruct (foldr tf.disposeTensor
              (foldr tf.disposeTensor (mkEngine reg next scopes) ids) ids)
    as [r2 n2 s2].
  destruct (foldr tf.disposeTensor (mkEngine reg next scopes) ids)
    as [r1 n1 s1].
  simpl in *. by subst.
Qed.

(** X3. [getBoxSize] does not change when the corners are swapped, and
    it is zero on an axis exactly when the corners agree on it. *)
Theorem getBoxSize_symmetric_definite box :
  let flipped := mkCpuBox (cpuEndPoint box) (cpuStartPoint box)
                   (cpuLandmarks box) in
  Qeq2 (getBoxSize flipped) (getBoxSize box)
  /\ (fst (getBoxSize box) == 0
      <-> fst (cpuStartPoint box) == fst (cpuEndPoint box))
  /\ (snd (getBoxSize box) == 0
      <-> snd (cpuStartPoint box) == snd (cpuEndPoint box)).
Proof.
  intros flipped. unfold Qeq2, getBoxSize, flipped;
    cbn [fst snd cpuStartPoint cpuEndPoint].
  assert (Hflip : forall x y, Qabs (x - y) == Qabs (y - x)).
  { intros x y. rewrite <- (Qabs_opp (y - x)).
    assert (E : - (y - x) == x - y) by ring. by rewrite E. }
  assert (Hzero : forall x y, Qabs (y - x) == 0 <-> x == y).
  { intros x y. split; intros Hxy.
    - destruct (Qabs_cases (y - x)) as [_ [E|E]]; rewrite Hxy in E; lra.
    - assert (E : y - x == 0) by lra. by rewrite E. }
  split; [split; apply Hflip|]. split; apply Hzero.
Qed.


(** ** The theorems above on the example inputs *)

Ltac by_evaluation :=
  first
    [ reflexivity
    | apply (bool_decide_unpack _); vm_compute; exact I
    | split; reflexivity
    | eexists; reflexivity
    | unfold Qle; simpl; lia
    | lia ].

(** Factor 1 on the box with start [[30,20]] and end [[10,50]]: the
    result is ordered and its corners are [[10,20]] and [[30,50]]. *)
Lemma enlargeBox_orders_corners_witness :
  exists e' box' a' b' c' d',
    enlargeBox exampleBox 1 crossedEngine = (e', Ok box')
    /\ boxHolds e' box' a' b' c' d'
    /\ (a' <= c' /\ b' <= d')
    /\ (Qeq2 (a', b') (10, 20) /\ Qeq2 (c', d') (30, 50)).
Proof.
  assert (Hwf : wfEngine crossedEngine).
  { apply (bool_decide_unpack _). vm_compute. exact I. }
  destruct (enlargeBox_orders_corners crossedEngine exampleBox 0%nat
              30 20 10 50 1 Hwf eq_refl eq_refl eq_refl)
    as (e' & box' & a' & b' & c' & d' & Hrun & Hholds & Hordered & Hsorted).
  exists e', box', a', b', c', d'.
  split; [exact Hrun|]. split; [exact Hholds|]. split.
  - apply Hordered. unfold Qle; simpl; lia.
  - apply Hsorted. reflexivity.
Defined.

Lemma enlargeBox_composes_witness :
  let cpu := mkCpuBox (10, 20) (30, 50) None in
  let start := sub2 (getBoxCenter cpu) (scale2 (2 * 3 / 2) (getBoxSize cpu)) in
  let finish := add2 (getBoxCenter cpu) (scale2 (2 * 3 / 2) (getBoxSize cpu)) in
  exists e1 box1 e2 box2 e3 box3,
    enlargeBox exampleBox 2 exampleEngine = (e1, Ok box1)
    /\ enlargeBox box1 3 e1 = (e2, Ok box2)
    /\ enlargeBox exampleBox (2 * 3) exampleEngine = (e3, Ok box3)
    /\ cornersAre e2 box2 start finish
    /\ cornersAre e3 box3 start finish.
Proof.
  apply (enlargeBox_composes exampleEngine exampleBox 0%nat 10 20 30 50 2 3);
    by_evaluation.
Defined.

Lemma scaleBoxCoordinates_composes_witness :
  exists e1 box1 e2 box2 e3 box3,
    scaleBoxCoordinates exampleBox (factorPair 2 2) smallEngine
    = (e1, Ok box1)
    /\ scaleBoxCoordinates box1 (factorPair 3 3) e1 = (e2, Ok box2)
    /\ scaleBoxCoordinates exampleBox (factorPair (2 * 3) (2 * 3)) smallEngine
       = (e3, Ok box3)
    /\ cornersAre e2 box2 (1 * (2 * 3), 2 * (2 * 3)) (3 * (2 * 3), 4 * (2 * 3))
    /\ cornersAre e3 box3 (1 * (2 * 3), 2 * (2 * 3)) (3 * (2 * 3), 4 * (2 * 3))
    /\ (~ 2 == 0 -> ~ 2 == 0 -> 3 == / 2 -> 3 == / 2 ->
        cornersAre e2 box2 (1, 2) (3, 4)).
Proof.
  apply (scaleBoxCoordinates_composes smallEngine exampleBox (factorPair 2 2)
           0%nat 1 2 3 4 2 2 3 3); by_evaluation.
Defined.

Lemma scale_and_enlarge_commute_witness :
  exists e1 box1 e2 box2 e3 box3 e4 box4 start finish,
    enlargeBox exampleBox 2 exampleEngine = (e1, Ok box1)
    /\ scaleBoxCoordinates box1 (factorPair 2 3) e1 = (e2, Ok box2)
    /\ scaleBoxCoordinates exampleBox (factorPair 2 3) exampleEngine
       = (e3, Ok box3)
    /\ enlargeBox box3 2 e3 = (e4, Ok box4)
    /\ cornersAre e2 box2 start finish
    /\ cornersAre e4 box4 start finish.
Proof.
  apply (scale_and_enlarge_commute exampleEngine exampleBox 0%nat
           10 20 30 50 2 3 2); by_evaluation.
Defined.

Lemma scale_to_pixels_then_crop_witness :
  exists e1 box1 t,
    scaleBoxCoordinates exampleBox (factorPair (ofNat 40) (ofNat 40))
      imageEngine
    = (e1, Ok box1)
    /\ handsOver (H := image.bilinear) e1 box1 3%nat (2, 2)%nat t
    /\ shape t = [1; 4]%nat
    /\ Forall2 Qeq (values t) [20; 10; 50; 30].
Proof.
  apply (scale_to_pixels_then_crop (H := image.bilinear) imageEngine
           exampleBox 0%nat 10 20 30 50 3%nat
           (mkTensor [1; 40; 40; 1]%nat (replicate (40 * 40) 1))
           40 40 1 (2, 2)%nat); by_evaluation.
Defined.

Lemma transforms_return_consistent_boxes_witness :
  (forall factor fx fy,
      factorIs exampleEngine factor fx fy ->
      exists e' box',
        scaleBoxCoordinates exampleBox factor exampleEngine = (e', Ok box')
        /\ consistent e' box')
  /\ (forall factor,
        exists e' box',
          enlargeBox exampleBox factor exampleEngine = (e', Ok box')
          /\ consistent e' box').
Proof.
  apply (transforms_return_consistent_boxes exampleEngine exampleBox 0%nat
           10 20 30 50); by_evaluation.
Defined.

Lemma enlargeBox_releases_temporaries_always_witness :
  5%nat ∈ resultTensors (enlargeBox exampleBox 2 exampleEngine)
  \/ isReleased (fst (enlargeBox exampleBox 2 exampleEngine)) 5.
Proof.
  apply (enlargeBox_releases_temporaries_always exampleEngine exampleBox 2
           5%nat); by_evaluation.
Defined.

Lemma cutBox_releases_temporaries_always_witness :
  5%nat ∈ resultTensors
            (cutBoxFromImageAndResize (H := image.bilinear)
               exampleBox 3%nat (2, 2)%nat imageEngine)
  \/ isReleased
       (fst (cutBoxFromImageAndResize (H := image.bilinear)
               exampleBox 3%nat (2, 2)%nat imageEngine)) 5.
Proof.
  apply (cutBox_releases_temporaries_always (H := image.bilinear)
           imageEngine exampleBox 3%nat (2, 2)%nat 5%nat); by_evaluation.
Defined.


Lemma cutBox_preserves_witness :
  preserved imageEngine
    (fst (cutBoxFromImageAndResize (H := image.bilinear)
            exampleBox 3%nat (2, 2)%nat imageEngine)).
Proof.
  apply (cutBox_preserves (H := image.bilinear) imageEngine exampleBox
           3%nat (2, 2)%nat); by_evaluation.
Defined.

Lemma use_after_disposeBox_throws_witness :
  let e' := fst (disposeBox (Some exampleBox) imageEngine) in
  snd (scaleBoxCoordinates exampleBox (factorPair 2 2) e')
  = Throw BackendFailure
  /\ snd (enlargeBox exampleBox 2 e') = Throw Disposed
  /\ snd (cutBoxFromImageAndResize (H := image.bilinear)
            exampleBox 3%nat (2, 2)%nat e') = Throw Disposed
  /\ snd (createBox (startEndTensor exampleBox) None None e')
     = Throw BackendFailure.
Proof.
  apply (use_after_disposeBox_throws (H := image.bilinear) imageEngine
           exampleBox 0%nat (factorPair 2 2) 2 3%nat (2, 2)%nat);
    by_evaluation.
Defined.

(** A buffer of three columns is rejected; from a buffer of two rows
    and five columns the points are columns 0-1 and 2-3 of each row. *)
Lemma createBox_needs_four_columns_witness :
  snd (createBox 0%nat None None narrowEngine) = Throw ShapeMismatch
  /\ exists e' s ep vs vep,
       createBox 0%nat None None wideEngine
       = (e', Ok (mkBox (Some s) ep 0%nat None))
       /\ live e' s (mkTensor [2; 2]%nat vs)
       /\ live e' ep (mkTensor [2; 2]%nat vep)
       /\ forall i j,
            (i < 2)%nat -> (j < 2)%nat ->
            vs !! (i * 2 + j)%nat
            = [1; 2; 3; 4; 5; 6; 7; 8; 9; 10] !! (i * 5 + j)%nat
            /\ vep !! (i * 2 + j)%nat
               = [1; 2; 3; 4; 5; 6; 7; 8; 9; 10] !! (i * 5 + (2 + j))%nat.
Proof.
  split.
  - apply (createBox_needs_four_columns narrowEngine 0%nat 1 3 [0; 0; 10]);
      by_evaluation.
  - apply (createBox_needs_four_columns wideEngine 0%nat 2 5
             [1; 2; 3; 4; 5; 6; 7; 8; 9; 10]); by_evaluation.
Defined.

Lemma cutBox_takes_one_box_witness :
  snd (cutBoxFromImageAndResize (H := image.bilinear)
         (mkBox None 0%nat 0%nat None) 1%nat (2, 2)%nat batchEngine)
  = Throw ShapeMismatch.
Proof.
  apply (cutBox_takes_one_box (H := image.bilinear) batchEngine
           (mkBox None 0%nat 0%nat None) 1%nat
           (mkTensor [1; 2; 2; 1]%nat [1; 2; 3; 4]) 1 2 2 1
           2 [0; 0; 1; 1; 1; 1; 2; 2] (2, 2)%nat); by_evaluation.
Defined.

Lemma createBox_consistent_witness :
  consistent (fst (createBox 0%nat None None bufferEngine))
    (mkBox (Some 1%nat) 2%nat 0%nat None).
Proof.
  apply (createBox_consistent bufferEngine
           (fst (createBox 0%nat None None bufferEngine))
           0%nat 1 [0; 0; 10; 10] (mkBox (Some 1%nat) 2%nat 0%nat None));
    by_evaluation.
Defined.

Lemma cutBox_depends_on_buffer_data_witness :
  exists e1 out1 e2 out2 t,
    cutBoxFromImageAndResize (H := image.bilinear)
      (mkBox None 0%nat 0%nat None) 2%nat (3, 3)%nat twinEngine
    = (e1, Ok out1)
    /\ cutBoxFromImageAndResize (H := image.bilinear)
         (mkBox None 1%nat 1%nat None) 2%nat (3, 3)%nat twinEngine
       = (e2, Ok out2)
    /\ live e1 out1 t /\ live e2 out2 t.
Proof.
  apply (cutBox_depends_on_buffer_data (H := image.bilinear) twinEngine
           (mkBox None 0%nat 0%nat None) (mkBox None 1%nat 1%nat None)
           2%nat (mkTensor [1; 2; 2; 1]%nat [1; 2; 3; 4]) 2 2 1
           0 0 2 2 3 3); by_evaluation.
Defined.
